(** * EDF scheduler of sound-open-firmware: [src/lib/schedule.c]

    A shallow embedding of the scheduler core.  Task objects live in a heap
    indexed by their address, the scheduler's intrusive list [sch->list] is
    the sequence of task addresses in forward traversal order, and every
    [uint64_t] computation is written with its wrap-around modulo [2^64]. *)

From Stdlib Require Import ZArith Lia.
From stdpp Require Import base decidable option list gmap.

Local Open Scope Z_scope.

(** ** Machine integers *)

Definition UINT64_MAX : Z := 2 ^ 64 - 1.
Definition INT_MAX : Z := 2 ^ 31 - 1.
Definition EAGAIN : Z := 11.

(** [uint64_t] arithmetic: results are reduced modulo [2^64]. *)
Definition wrap64 (z : Z) : Z := z mod 2 ^ 64.
Definition add64 (a b : Z) : Z := wrap64 (a + b).
Definition sub64 (a b : Z) : Z := wrap64 (a - b).
Definition shl64 (a n : Z) : Z := wrap64 (Z.shiftl a n).

(** [int] increment as the two's complement target performs it. *)
Definition wrap_int (z : Z) : Z := (z + 2 ^ 31) mod 2 ^ 32 - 2 ^ 31.

Definition uint64 (z : Z) : Prop := 0 <= z <= UINT64_MAX.

(** ** Tasks *)

(** The task states this file tests or assigns. *)
Inductive task_state : Set :=
  | TASK_STATE_QUEUED
  | TASK_STATE_RUNNING
  | TASK_STATE_COMPLETED
  | TASK_STATE_CANCEL.

#[global] Instance task_state_eq_dec : EqDecision task_state.
Proof. solve_decision. Defined.

(** The fields of [struct task] the scheduler reads or writes. *)
Record task : Set := Task {
  state : task_state;
  start : Z;
  deadline : Z;
  max_rtime : Z
}.

#[global] Instance task_eq_dec : EqDecision task.
Proof. solve_decision. Defined.

#[global] Instance task_inhabited : Inhabited task :=
  populate (Task TASK_STATE_COMPLETED 0 0 0).

Definition set_state (s : task_state) (tk : task) : task :=
  Task s (start tk) (deadline tk) (max_rtime tk).
Definition set_start (v : Z) (tk : task) : task :=
  Task (state tk) v (deadline tk) (max_rtime tk).
Definition set_deadline (v : Z) (tk : task) : task :=
  Task (state tk) (start tk) v (max_rtime tk).

(** ** Deadline-miss recovery: [edf_reschedule] *)

Definition SLOT_ALIGN_TRIES : nat := 10.

(** The [for] loop of [edf_reschedule] with [tries] iterations left and [i]
    bodies already executed.  The result is the task as the loop left it,
    the number of bodies executed, and whether the body returned. *)
Fixpoint slot_align (tries : nat) (delta current : Z) (tk : task) (i : nat)
  : task * nat * bool :=
  match tries with
  | O => (tk, i, false)
  | S tries' =>
      let tk1 := set_start (add64 (start tk) delta) tk in
      if add64 current delta <? start tk1
      then (set_deadline (add64 (start tk1) delta) tk1, S i, true)
      else slot_align tries' delta current tk1 (S i)
  end.

(** [edf_reschedule] together with the number of loop bodies it executed. *)
Definition edf_reschedule_run (tk : task) (current : Z) : task * nat :=
  let delta := shl64 (sub64 (deadline tk) (start tk)) 1 in
  match slot_align SLOT_ALIGN_TRIES delta current tk 0 with
  | (tk', n, true) => (tk', n)
  | (tk', n, false) =>
      let tk2 := set_start (add64 current delta) tk' in
      (set_deadline (add64 (start tk2) delta) tk2, n)
  end.

Definition edf_reschedule (tk : task) (current : Z) : task :=
  fst (edf_reschedule_run tk current).

Definition edf_reschedule_iterations (tk : task) (current : Z) : nat :=
  snd (edf_reschedule_run tk current).

(** ** Scheduler state *)

(** The memory the scheduler works on.  [heap] holds the task objects by
    address; [sch_list] and [sch_clock] are the fields [list] and [clock] of
    [struct schedule_data]; [irq_pending] is the state of
    [PLATFORM_SCHEDULE_IRQ]; [work_timeout] is the time at which [sch->work]
    is armed, if it is. *)
Record sched : Type := Sched {
  heap : gmap nat task;
  sch_list : list nat;
  sch_clock : Z;
  irq_pending : bool;
  work_timeout : option Z
}.

Definition task_at (st : sched) (p : nat) : task := heap st !!! p.

Definition store_task (p : nat) (tk : task) (st : sched) : sched :=
  Sched (<[p := tk]> (heap st)) (sch_list st) (sch_clock st)
        (irq_pending st) (work_timeout st).

Definition with_list (l : list nat) (st : sched) : sched :=
  Sched (heap st) l (sch_clock st) (irq_pending st) (work_timeout st).

(** Modelled from the spec: [list_item_del] and [list_item_append] are
    declared in [reef/list.h], outside [schedule.c]; the specification
    describes them as removing a task from the collection and appending a
    task to the collection. *)
Definition list_item_del (p : nat) (st : sched) : sched :=
  with_list (filter (λ q, q ≠ p) (sch_list st)) st.

(** Modelled from the spec: [list_item_append] of [reef/list.h], which the
    specification describes as appending a task to the collection, a task
    being a member at most once.  The list node is embedded in the task, so
    a list never holds a task twice.  Linking [p] at the tail makes [p] the
    successor of the old tail and the head the successor of [p]: forward
    traversal then ends at [p].  For a task that is not linked this is the
    list with [p] added at its end; for a task that is already linked,
    traversal stops at its old position and the nodes that followed it are
    no longer reached. *)
Fixpoint link_tail (p : nat) (l : list nat) : list nat :=
  match l with
  | [] => [p]
  | x :: l' => if decide (x = p) then [p] else x :: link_tail p l'
  end.

(** Modelled from the spec: [list_item_append] on the scheduler's list, in
    forward traversal order. *)
Definition list_item_append (p : nat) (st : sched) : sched :=
  with_list (link_tail p (sch_list st)) st.

(** Modelled from the spec: [interrupt_set], [interrupt_clear] and
    [work_reschedule_default_at] belong to the interrupt and work-queue
    collaborators; a scheduling pass is requested by raising the scheduling
    interrupt, and the deferred callback is armed at an absolute time,
    replacing any earlier arming. *)
Definition interrupt_set (st : sched) : sched :=
  Sched (heap st) (sch_list st) (sch_clock st) true (work_timeout st).

Definition interrupt_clear (st : sched) : sched :=
  Sched (heap st) (sch_list st) (sch_clock st) false (work_timeout st).

Definition work_reschedule_default_at (time : Z) (st : sched) : sched :=
  Sched (heap st) (sch_list st) (sch_clock st) (irq_pending st) (Some time).

(** What the platform supplies: the tick conversion of [reef/clock.h], the
    constant [PLATFORM_SCHEDULE_COST] and the task executor of
    [arch/task.h]. *)
Class Platform : Type := {
  clock_us_to_ticks : Z → Z → Z;
  PLATFORM_SCHEDULE_COST : Z;
  arch_run_task : nat → sched → sched
}.

(** ** The selector: [edf_get_next] *)

(** [deadline = task->deadline - task->max_rtime] *)
Definition effective_deadline (tk : task) : Z :=
  sub64 (deadline tk) (max_rtime tk).

(** The local variables of [edf_get_next] that live across iterations. *)
Record edf_locals : Set := EdfLocals {
  next_task : option nat;
  next_delta : Z;
  reschedule : Z
}.

(** One execution of the loop body, on the task at address [p]. *)
Definition edf_visit (current : Z) (s : edf_locals * sched) (p : nat)
  : edf_locals * sched :=
  let '(loc, st) := s in
  let tk := task_at st p in
  if decide (state tk ≠ TASK_STATE_QUEUED) then (loc, st)
  else
    let dl := effective_deadline tk in
    if current <? dl then
      let delta := sub64 dl current in
      if delta <? next_delta loc
      then (EdfLocals (Some p) delta (reschedule loc), st)
      else (loc, st)
    else
      let loc' := EdfLocals (next_task loc) (next_delta loc)
                    (wrap_int (reschedule loc + 1)) in
      if negb (reschedule loc =? 0)
      then (loc', store_task p (edf_reschedule tk current) st)
      else (loc', store_task p (set_state TASK_STATE_CANCEL tk)
                    (list_item_del p st)).

(** [list_for_item_safe] over [items].  The safe iterator saved the
    successor before the body ran, so unlinking the current item does not
    disturb the traversal: the loop visits the items as they were linked on
    entry. *)
Definition edf_scan (current : Z) (items : list nat) (s : edf_locals * sched)
  : edf_locals * sched :=
  foldl (edf_visit current) s items.

Definition edf_get_next (current : Z) (ignore : option nat) (st : sched)
  : option nat * sched :=
  match sch_list st with
  | [] => (None, st)
  | items =>
      let '(loc, st') :=
        edf_scan current items (EdfLocals None UINT64_MAX 0, st) in
      (next_task loc, st')
  end.

(** ** The driver: [schedule_edf], [scheduler_run], [schedule] *)

Definition schedule_edf `{Platform} (current : Z) (st : sched)
  : option nat * sched :=
  let '(task, st1) := edf_get_next current None st in
  let st2 := interrupt_clear st1 in
  match task with
  | None => (None, st2)
  | Some p =>
      if current <? start (task_at st2 p)
      then (Some p, st2)
      else
        let '(next_plus1_task, st3) := edf_get_next current (Some p) st2 in
        let st4 := store_task p (set_start current (task_at st3 p)) st3 in
        (next_plus1_task, arch_run_task p st4)
  end.

Definition scheduler_run `{Platform} (current : Z) (st : sched) : sched :=
  let '(next_task, st1) := schedule_edf current st in
  match next_task with
  | Some p => work_reschedule_default_at (start (task_at st1 p)) st1
  | None => st1
  end.

Definition schedule (st : sched) : sched := interrupt_set st.

(** ** The queue API: [schedule_task_del], [schedule_task],
    [schedule_task_complete] *)

Definition schedule_task_del (p : nat) (st : sched) : Z * sched :=
  if decide (state (task_at st p) = TASK_STATE_RUNNING)
  then (- EAGAIN, st)
  else
    let st1 := list_item_del p st in
    (0, store_task p (set_state TASK_STATE_COMPLETED (task_at st1 p)) st1).

Definition schedule_task `{Platform} (p : nat) (start_us deadline_us : Z)
    (current : Z) (st : sched) : sched :=
  if decide (state (task_at st p) = TASK_STATE_RUNNING)
  then st
  else
    let tk := task_at st p in
    let tk1 :=
      if start_us =? 0
      then set_start current tk
      else set_start
             (sub64 (add64 (start tk) (clock_us_to_ticks (sch_clock st) start_us))
                    PLATFORM_SCHEDULE_COST) tk in
    let tk2 :=
      set_deadline
        (add64 (start tk1) (clock_us_to_ticks (sch_clock st) deadline_us)) tk1 in
    let st1 := list_item_append p (store_task p tk2 st) in
    schedule (store_task p (set_state TASK_STATE_QUEUED (task_at st1 p)) st1).

Definition schedule_task_complete (p : nat) (st : sched) : sched :=
  let st1 := list_item_del p st in
  store_task p (set_state TASK_STATE_COMPLETED (task_at st1 p)) st1.

(** ** Vocabulary of the properties *)

(** The realignment window of [edf_reschedule]: [(deadline - start) << 1]. *)
Definition window (tk : task) : Z := shl64 (sub64 (deadline tk) (start tk)) 1.

(** The start time after [k] executions of [task->start += delta]. *)
Definition advanced_start (tk : task) (k : nat) : Z :=
  wrap64 (start tk + Z.of_nat k * window tk).

(** The test [task->start > current + delta] after [k] advances. *)
Definition slot_accepted (tk : task) (current : Z) (k : nat) : Prop :=
  add64 current (window tk) < advanced_start tk k.

(** A queued task whose effective deadline is still ahead of [current]. *)
Definition live (current : Z) (tk : task) : Prop :=
  state tk = TASK_STATE_QUEUED ∧ current < effective_deadline tk.

(** A queued task whose effective deadline is at or before [current]. *)
Definition missed (current : Z) (tk : task) : Prop :=
  state tk = TASK_STATE_QUEUED ∧ effective_deadline tk <= current.

#[global] Instance live_dec current tk : Decision (live current tk).
Proof. unfold live. apply _. Defined.

#[global] Instance missed_dec current tk : Decision (missed current tk).
Proof. unfold missed. apply _. Defined.

(** [delta = deadline - current] of the selector, for a live task. *)
Definition slack (current : Z) (tk : task) : Z :=
  sub64 (effective_deadline tk) current.

(** Among the live tasks of [items], [q] has the least slack and is the
    first to have it: every live task before it has strictly more slack,
    every live task after it has at least as much. *)
Definition first_least (current : Z) (st : sched) (items : list nat) (q : nat)
  : Prop :=
  ∃ l1 l2 : list nat,
    items = l1 ++ q :: l2 ∧
    live current (task_at st q) ∧
    (∀ x, x ∈ l1 → live current (task_at st x) →
       slack current (task_at st q) < slack current (task_at st x)) ∧
    (∀ x, x ∈ l2 → live current (task_at st x) →
       slack current (task_at st q) <= slack current (task_at st x)).

(** The timing invariant of the specification: a queued task's deadline
    lies after its start. *)
Definition deadline_after_start (st : sched) : Prop :=
  ∀ p : nat,
    state (task_at st p) = TASK_STATE_QUEUED →
    start (task_at st p) < deadline (task_at st p).

(** All times in play are at most [bound] ticks: the current time, and the
    start and deadline of every queued task. *)
Definition within_horizon (bound current : Z) (st : sched) : Prop :=
  0 <= current <= bound ∧
  ∀ p : nat,
    state (task_at st p) = TASK_STATE_QUEUED →
    0 <= start (task_at st p) ∧ deadline (task_at st p) <= bound.

(** Below this many ticks no sum formed by two selector passes wraps. *)
Definition TICK_HORIZON : Z := 2 ^ 54.

(** The memory in which [schedule_edf] calls [arch_run_task] on the due
    task [p]: after the first selection, the interrupt clear, the second
    selection and [task->start = current]. *)
Definition dispatch_state (current : Z) (p : nat) (st : sched) : sched :=
  let st2 := interrupt_clear (edf_get_next current None st).2 in
  let st3 := (edf_get_next current (Some p) st2).2 in
  store_task p (set_start current (task_at st3 p)) st3.

(** The intrusive list links every task object at most once. *)
Definition list_wf (st : sched) : Prop := NoDup (sch_list st).

(** The start time [schedule_task] computes for a task that is not
    running, as one [uint64_t] expression. *)
Definition schedule_task_start `{Platform} (p : nat) (start_us current : Z)
    (st : sched) : Z :=
  if start_us =? 0 then current
  else wrap64 (start (task_at st p)
               + clock_us_to_ticks (sch_clock st) start_us
               - PLATFORM_SCHEDULE_COST).

(** ** Concrete platforms and states *)

(** Modelled from the spec: [clock_us_to_ticks] is defined in the clock
    driver, outside [schedule.c]; the specification gives it as the
    conversion [to_ticks(microseconds, configured_rate) -> ticks].  Concrete
    scenarios use a conversion proportional to the duration. *)
Definition linear_ticks (ticks_per_usec : Z) : Z → Z → Z :=
  λ _ us, wrap64 (ticks_per_usec * us).

(** A platform whose executor runs the task to completion, as the
    specification describes the executor's contract. *)
Definition sample_platform : Platform := {|
  clock_us_to_ticks := linear_ticks 19;
  PLATFORM_SCHEDULE_COST := 5;
  arch_run_task := schedule_task_complete
|}.

(** The state [scheduler_init] leaves, with a single task object at
    address [1] that was never queued. *)
Definition one_task (s : task_state) (t0 t1 rt : Z) : sched :=
  Sched {[ 1%nat := Task s t0 t1 rt ]} [] 0 false None.

(** The same task, linked into the scheduler's list. *)
Definition one_queued (s : task_state) (t0 t1 rt : Z) : sched :=
  Sched {[ 1%nat := Task s t0 t1 rt ]} [1%nat] 0 false None.

(** Three queued tasks; at time [50] the tasks at [1] and [2] have missed
    their effective deadlines and the task at [3] has not. *)
Definition three_tasks : sched :=
  Sched (<[1%nat := Task TASK_STATE_QUEUED 0 10 0]>
           (<[2%nat := Task TASK_STATE_QUEUED 0 20 0]>
              {[ 3%nat := Task TASK_STATE_QUEUED 40 200 5 ]}))
        [1%nat; 2%nat; 3%nat] 0 false None.

(** A single queued task whose effective deadline is the largest
    [uint64_t] value. *)
Definition far_deadline : sched :=
  one_queued TASK_STATE_QUEUED 0 UINT64_MAX 0.

(** Membership and state agree: every task is linked at most once, and a
    task is linked exactly when its state is [TASK_STATE_QUEUED]. *)
Definition queue_consistent (st : sched) : Prop :=
  list_wf st ∧
  ∀ p : nat, state (task_at st p) = TASK_STATE_QUEUED ↔ p ∈ sch_list st.

(** [sch_work], the handler of [sch->work]: it asks for a scheduling pass
    and returns [0], which leaves the work unarmed. *)
Definition sch_work (st : sched) : Z * sched := (0, schedule st).

(** * Properties *)

(** ** Arithmetic modulo [2^64] *)

Lemma wrap64_range z : 0 <= wrap64 z <= UINT64_MAX.
Proof. unfold wrap64, UINT64_MAX. pose proof (Z.mod_pos_bound z (2 ^ 64)). lia. Qed.

Lemma wrap64_small z : uint64 z → wrap64 z = z.
Proof. unfold uint64, wrap64, UINT64_MAX. intros Hz. apply Z.mod_small. lia. Qed.

Lemma wrap64_add_l a b : wrap64 (wrap64 a + b) = wrap64 (a + b).
Proof. unfold wrap64. apply Zplus_mod_idemp_l. Qed.

Lemma wrap64_add_r a b : wrap64 (a + wrap64 b) = wrap64 (a + b).
Proof. unfold wrap64. apply Zplus_mod_idemp_r. Qed.

Lemma wrap64_double a : wrap64 (2 * wrap64 a) = wrap64 (2 * a).
Proof. unfold wrap64. apply Zmult_mod_idemp_r. Qed.

Lemma shl64_one a : shl64 a 1 = wrap64 (2 * a).
Proof. unfold shl64. rewrite Z.shiftl_mul_pow2 by lia. f_equal. lia. Qed.

Lemma window_eq tk : window tk = wrap64 (2 * (deadline tk - start tk)).
Proof. unfold window, sub64. rewrite shl64_one. apply wrap64_double. Qed.

Lemma window_range tk : 0 <= window tk <= UINT64_MAX.
Proof. rewrite window_eq. apply wrap64_range. Qed.

(** ** Deadline-miss recovery *)

Lemma slot_align_spec tries delta current tk i :
  match slot_align tries delta current tk i with
  | (tk', n, true) =>
      state tk' = state tk ∧ max_rtime tk' = max_rtime tk ∧
      ∃ k : nat,
        (1 ≤ k ≤ tries)%nat ∧ n = (i + k)%nat ∧
        start tk' = wrap64 (start tk + Z.of_nat k * delta) ∧
        add64 current delta < start tk' ∧
        deadline tk' = add64 (start tk') delta ∧
        ∀ j : nat, (1 ≤ j < k)%nat →
          ¬ add64 current delta < wrap64 (start tk + Z.of_nat j * delta)
  | (tk', n, false) =>
      state tk' = state tk ∧ max_rtime tk' = max_rtime tk ∧
      n = (i + tries)%nat ∧
      ∀ j : nat, (1 ≤ j ≤ tries)%nat →
        ¬ add64 current delta < wrap64 (start tk + Z.of_nat j * delta)
  end.
Proof.
  revert tk i. induction tries as [|tries IH]; intros tk i; cbn [slot_align].
  - split; [reflexivity|]. split; [reflexivity|]. split; [lia|].
    intros j Hj. lia.
  - destruct (Z.ltb_spec (add64 current delta)
                (start (set_start (add64 (start tk) delta) tk))) as [Hacc|Hrej].
    + cbn [set_start start state max_rtime set_deadline deadline] in *.
      split; [reflexivity|]. split; [reflexivity|]. exists 1%nat.
      split; [lia|]. split; [lia|].
      split; [unfold add64; f_equal; lia|].
      split; [exact Hacc|]. split; [reflexivity|].
      intros j Hj. lia.
    + specialize (IH (set_start (add64 (start tk) delta) tk) (S i)).
      assert (Hshift : ∀ j : nat,
                 wrap64 (add64 (start tk) delta + Z.of_nat j * delta)
                 = wrap64 (start tk + Z.of_nat (S j) * delta)).
      { intros j. unfold add64. rewrite wrap64_add_l. f_equal. lia. }
      destruct (slot_align tries delta current _ (S i)) as [[tk' n] [|]];
        cbn [set_start start state max_rtime] in *.
      * destruct IH as (Hs & Hm & k & Hk & Hn & Hst & Hacc & Hdl & Hprev).
        split; [exact Hs|]. split; [exact Hm|]. exists (S k).
        split; [lia|]. split; [lia|].
        split; [rewrite Hst; apply Hshift|].
        split; [exact Hacc|]. split; [exact Hdl|].
        intros j Hj. destruct j as [|j]; [lia|].
        destruct j as [|j].
        -- replace (start tk + Z.of_nat 1 * delta) with (start tk + delta) by lia.
           fold (add64 (start tk) delta). lia.
        -- rewrite <- Hshift. apply Hprev. lia.
      * destruct IH as (Hs & Hm & Hn & Hprev).
        split; [exact Hs|]. split; [exact Hm|]. split; [lia|].
        intros j Hj. destruct j as [|j]; [lia|].
        destruct j as [|j].
        -- replace (start tk + Z.of_nat 1 * delta) with (start tk + delta) by lia.
           fold (add64 (start tk) delta). lia.
        -- rewrite <- Hshift. apply Hprev. lia.
Qed.

Lemma edf_reschedule_start_range tk current :
  uint64 (start (edf_reschedule tk current)).
Proof.
  unfold edf_reschedule, edf_reschedule_run. fold (window tk).
  pose proof (slot_align_spec SLOT_ALIGN_TRIES (window tk) current tk 0) as H.
  destruct (slot_align SLOT_ALIGN_TRIES (window tk) current tk 0)
    as [[tk' n] [|]]; cbn [fst set_start set_deadline start].
  - destruct H as (_ & _ & k & _ & _ & Hst & _). rewrite Hst. apply wrap64_range.
  - apply wrap64_range.
Qed.

Lemma edf_reschedule_fields tk current :
  deadline (edf_reschedule tk current)
  = wrap64 (start (edf_reschedule tk current) + 2 * (deadline tk - start tk)) ∧
  state (edf_reschedule tk current) = state tk ∧
  max_rtime (edf_reschedule tk current) = max_rtime tk.
Proof.
  unfold edf_reschedule, edf_reschedule_run. fold (window tk).
  pose proof (slot_align_spec SLOT_ALIGN_TRIES (window tk) current tk 0) as H.
  assert (Hdl : ∀ s, add64 s (window tk)
                     = wrap64 (s + 2 * (deadline tk - start tk))).
  { intros s. unfold add64. rewrite window_eq. apply wrap64_add_r. }
  destruct (slot_align SLOT_ALIGN_TRIES (window tk) current tk 0)
    as [[tk' n] [|]]; cbn [fst].
  - destruct H as (Hs & Hm & k & _ & _ & _ & _ & Hd & _).
    rewrite Hd, Hdl. by repeat split.
  - destruct H as (Hs & Hm & _).
    cbn [set_start set_deadline start deadline state max_rtime].
    rewrite Hdl. by repeat split.
Qed.

(** C2: deadline-miss recovery executes the realignment body at most
    [SLOT_ALIGN_TRIES = 10] times; it stops at the first advance [k] whose
    start [start + k * window] exceeds [current + window], and when none of
    the ten advances does it forces [start = current + window]; in both
    cases [deadline = start + 2 * (old_deadline - old_start)], all sums
    being [uint64_t] sums.  State and [max_rtime] are not touched. *)
Theorem edf_reschedule_bounded_realignment (tk : task) (current : Z) :
  let tk' := edf_reschedule tk current in
  let n := edf_reschedule_iterations tk current in
  (n ≤ SLOT_ALIGN_TRIES)%nat ∧
  ((∃ k : nat,
       (1 ≤ k ≤ 10)%nat ∧ n = k ∧ slot_accepted tk current k ∧
       (∀ j : nat, (1 ≤ j < k)%nat → ¬ slot_accepted tk current j) ∧
       start tk' = advanced_start tk k)
   ∨ ((∀ j : nat, (1 ≤ j ≤ 10)%nat → ¬ slot_accepted tk current j) ∧
      n = 10%nat ∧ start tk' = add64 current (window tk))) ∧
  window tk = wrap64 (2 * (deadline tk - start tk)) ∧
  deadline tk' = wrap64 (start tk' + 2 * (deadline tk - start tk)) ∧
  state tk' = state tk ∧ max_rtime tk' = max_rtime tk.
Proof.
  cbv zeta. unfold edf_reschedule, edf_reschedule_iterations, edf_reschedule_run.
  fold (window tk).
  pose proof (slot_align_spec SLOT_ALIGN_TRIES (window tk) current tk 0) as H.
  assert (Hdl : ∀ s, add64 s (window tk)
                     = wrap64 (s + 2 * (deadline tk - start tk))).
  { intros s. unfold add64. rewrite window_eq. apply wrap64_add_r. }
  destruct (slot_align SLOT_ALIGN_TRIES (window tk) current tk 0)
    as [[tk' n] [|]]; cbn [fst snd].
  - destruct H as (Hs & Hm & k & Hk & Hn & Hst & Hacc & Hd & Hprev).
    unfold SLOT_ALIGN_TRIES in *.
    split; [lia|]. split.
    + left. exists k. unfold slot_accepted, advanced_start.
      split; [lia|]. split; [lia|]. split; [by rewrite <- Hst|].
      split; [exact Hprev|exact Hst].
    + split; [apply window_eq|]. rewrite Hd, Hdl. by repeat split.
  - destruct H as (Hs & Hm & Hn & Hprev).
    cbn [set_start set_deadline start deadline state max_rtime].
    unfold SLOT_ALIGN_TRIES in *.
    split; [lia|]. split.
    + right. unfold slot_accepted, advanced_start.
      split; [exact Hprev|]. split; [lia|reflexivity].
    + split; [apply window_eq|]. rewrite Hdl. by repeat split.
Qed.

(** Without wrap-around the recomputed deadline is the integer sum. *)
Lemma edf_reschedule_deadline_exact tk current :
  start tk <= deadline tk →
  start (edf_reschedule tk current) + 2 * (deadline tk - start tk) <= UINT64_MAX →
  deadline (edf_reschedule tk current)
  = start (edf_reschedule tk current) + 2 * (deadline tk - start tk).
Proof.
  intros Hle Hfit.
  destruct (edf_reschedule_fields tk current) as [Hd _].
  rewrite Hd. apply wrap64_small.
  pose proof (edf_reschedule_start_range tk current). unfold uint64 in *. lia.
Qed.

(** ** Reading and writing task objects *)

Lemma task_at_store_eq p tk st : task_at (store_task p tk st) p = tk.
Proof. unfold task_at, store_task; cbn. apply lookup_total_insert_eq. Qed.

Lemma task_at_store_ne p q tk st :
  p ≠ q → task_at (store_task p tk st) q = task_at st q.
Proof. intros Hne. unfold task_at, store_task; cbn. by apply lookup_total_insert_ne. Qed.

Lemma task_at_store p q tk st :
  task_at (store_task p tk st) q = if decide (p = q) then tk else task_at st q.
Proof.
  case_decide as Hpq; [subst; apply task_at_store_eq|by apply task_at_store_ne].
Qed.

Lemma task_at_with_list l st q : task_at (with_list l st) q = task_at st q.
Proof. reflexivity. Qed.

Lemma task_at_list_item_del p st q : task_at (list_item_del p st) q = task_at st q.
Proof. reflexivity. Qed.

Lemma task_at_list_item_append p st q :
  task_at (list_item_append p st) q = task_at st q.
Proof. reflexivity. Qed.

Lemma task_at_interrupt_set st q : task_at (interrupt_set st) q = task_at st q.
Proof. reflexivity. Qed.

Lemma task_at_interrupt_clear st q : task_at (interrupt_clear st) q = task_at st q.
Proof. reflexivity. Qed.

Lemma sch_list_store_task p tk st : sch_list (store_task p tk st) = sch_list st.
Proof. reflexivity. Qed.

Lemma sch_list_interrupt_clear st : sch_list (interrupt_clear st) = sch_list st.
Proof. reflexivity. Qed.

Create Rewrite HintDb sched_rw.
#[local] Hint Rewrite task_at_store_eq task_at_with_list task_at_list_item_del
  task_at_list_item_append task_at_interrupt_set task_at_interrupt_clear
  sch_list_store_task sch_list_interrupt_clear : sched_rw.

Lemma elem_of_list_item_del p q st :
  q ∈ sch_list (list_item_del p st) ↔ q ∈ sch_list st ∧ q ≠ p.
Proof. unfold list_item_del; cbn. rewrite list_elem_of_filter. tauto. Qed.

(** ** Cancelling: [schedule_task_del] *)

(** C3: on a task in state [TASK_STATE_RUNNING], [schedule_task_del] returns
    [-EAGAIN] and changes nothing: the whole scheduler state, hence the
    task's state, start, deadline and list membership, is as before. *)
Theorem schedule_task_del_running_busy (p : nat) (st : sched) :
  state (task_at st p) = TASK_STATE_RUNNING →
  (schedule_task_del p st).1 = - EAGAIN ∧
  (schedule_task_del p st).2 = st ∧
  task_at (schedule_task_del p st).2 p = task_at st p ∧
  (p ∈ sch_list (schedule_task_del p st).2 ↔ p ∈ sch_list st).
Proof.
  intros Hrun. unfold schedule_task_del.
  destruct (decide (state (task_at st p) = TASK_STATE_RUNNING)) as [_|Hn];
    [|contradiction].
  cbn [fst snd]. by repeat split.
Qed.

Lemma schedule_task_del_running_busy_witness :
  state (task_at (one_queued TASK_STATE_RUNNING 0 100 10) 1%nat)
  = TASK_STATE_RUNNING ∧
  (schedule_task_del 1%nat (one_queued TASK_STATE_RUNNING 0 100 10)).1 = -11.
Proof.
  split; [reflexivity|].
  apply (schedule_task_del_running_busy 1%nat
           (one_queued TASK_STATE_RUNNING 0 100 10)).
  reflexivity.
Defined.

(** C4, as the code has it: on a task that is not running,
    [schedule_task_del] returns [0], unlinks the task from the scheduler's
    list and sets its state to [TASK_STATE_COMPLETED]; the task's timing and
    every other task are left alone. *)
Theorem schedule_task_del_not_running (p : nat) (st : sched) :
  state (task_at st p) ≠ TASK_STATE_RUNNING →
  (schedule_task_del p st).1 = 0 ∧
  (p ∉ sch_list (schedule_task_del p st).2) ∧
  sch_list (schedule_task_del p st).2 = filter (λ q, q ≠ p) (sch_list st) ∧
  task_at (schedule_task_del p st).2 p
  = set_state TASK_STATE_COMPLETED (task_at st p) ∧
  ∀ q : nat, q ≠ p →
    task_at (schedule_task_del p st).2 q = task_at st q ∧
    (q ∈ sch_list (schedule_task_del p st).2 ↔ q ∈ sch_list st).
Proof.
  intros Hrun. unfold schedule_task_del.
  destruct (decide (state (task_at st p) = TASK_STATE_RUNNING)) as [Hr|_];
    [contradiction|].
  cbn [fst snd]. split; [reflexivity|]. split.
  { change (p ∉ sch_list (list_item_del p st)).
    rewrite elem_of_list_item_del. tauto. }
  split; [reflexivity|]. split; [apply task_at_store_eq|].
  intros q Hq. split.
  - by rewrite task_at_store_ne.
  - change (q ∈ sch_list (list_item_del p st) ↔ q ∈ sch_list st).
    rewrite elem_of_list_item_del. tauto.
Qed.

Lemma schedule_task_del_not_running_witness :
  state (task_at (one_queued TASK_STATE_QUEUED 0 100 10) 1%nat)
  ≠ TASK_STATE_RUNNING ∧
  task_at (schedule_task_del 1%nat (one_queued TASK_STATE_QUEUED 0 100 10)).2 1%nat
  = Task TASK_STATE_COMPLETED 0 100 10.
Proof.
  split; [discriminate|].
  apply (schedule_task_del_not_running 1%nat
           (one_queued TASK_STATE_QUEUED 0 100 10)).
  discriminate.
Defined.

(** C4, as the specification words it, fails: cancelling a queued task
    leaves it [TASK_STATE_COMPLETED], not [TASK_STATE_CANCEL]. *)
Lemma schedule_task_del_queued_not_cancelled :
  ¬ (state (task_at (one_queued TASK_STATE_QUEUED 0 100 10) 1%nat)
     ≠ TASK_STATE_RUNNING →
     state (task_at (schedule_task_del 1%nat
                       (one_queued TASK_STATE_QUEUED 0 100 10)).2 1%nat)
     = TASK_STATE_CANCEL).
Proof. intros H. specialize (H ltac:(discriminate)). discriminate H. Qed.

(** ** Inserting: [schedule_task] *)

Lemma sub64_add64 a b c : sub64 (add64 a b) c = wrap64 (a + b - c).
Proof. unfold sub64, add64, wrap64. apply Zminus_mod_idemp_l. Qed.

Lemma link_tail_fresh (p : nat) (l : list nat) :
  p ∉ l → link_tail p l = l ++ [p].
Proof.
  induction l as [|x l IH]; [done|].
  intros [Hx Hl]%not_elem_of_cons. cbn.
  rewrite decide_False by done. by rewrite IH.
Qed.

Lemma last_link_tail (p : nat) (l : list nat) : last (link_tail p l) = Some p.
Proof.
  induction l as [|x l IH]; [done|]. cbn.
  destruct (decide (x = p)); [done|].
  rewrite last_cons, IH. done.
Qed.

Section insert.
Context `{pf : Platform}.

Lemma schedule_task_running p start_us deadline_us current st :
  state (task_at st p) = TASK_STATE_RUNNING →
  schedule_task p start_us deadline_us current st = st.
Proof.
  intros Hrun. unfold schedule_task.
  destruct (decide (state (task_at st p) = TASK_STATE_RUNNING)); done.
Qed.

Lemma schedule_task_accepted p start_us deadline_us current st :
  state (task_at st p) ≠ TASK_STATE_RUNNING →
  task_at (schedule_task p start_us deadline_us current st) p
  = Task TASK_STATE_QUEUED
      (schedule_task_start p start_us current st)
      (wrap64 (schedule_task_start p start_us current st
               + clock_us_to_ticks (sch_clock st) deadline_us))
      (max_rtime (task_at st p)) ∧
  (p ∉ sch_list st →
   sch_list (schedule_task p start_us deadline_us current st)
   = sch_list st ++ [p]) ∧
  irq_pending (schedule_task p start_us deadline_us current st) = true ∧
  sch_clock (schedule_task p start_us deadline_us current st) = sch_clock st ∧
  work_timeout (schedule_task p start_us deadline_us current st)
  = work_timeout st ∧
  ∀ q : nat, q ≠ p →
    task_at (schedule_task p start_us deadline_us current st) q = task_at st q.
Proof.
  intros Hrun. unfold schedule_task.
  destruct (decide (state (task_at st p) = TASK_STATE_RUNNING)) as [Hr|_];
    [contradiction|].
  split.
  - unfold schedule. autorewrite with sched_rw. unfold schedule_task_start.
    destruct (start_us =? 0);
      cbn [set_state set_start set_deadline state start deadline max_rtime];
      [reflexivity|]. by rewrite sub64_add64.
  - split.
    { intros Hp. cbn. by apply link_tail_fresh. }
    repeat split. intros q Hq. unfold schedule.
    rewrite task_at_interrupt_set, task_at_store_ne by done.
    rewrite task_at_list_item_append. by rewrite task_at_store_ne.
Qed.

(** The inserted task is the last one reached from the head, whether or not
    it was linked before. *)
Lemma schedule_task_tail p start_us deadline_us current st :
  state (task_at st p) ≠ TASK_STATE_RUNNING →
  sch_list (schedule_task p start_us deadline_us current st)
  = link_tail p (sch_list st) ∧
  last (sch_list (schedule_task p start_us deadline_us current st)) = Some p.
Proof.
  intros Hrun. unfold schedule_task.
  destruct (decide (state (task_at st p) = TASK_STATE_RUNNING)) as [Hr|_];
    [contradiction|].
  cbn. split; [done|apply last_link_tail].
Qed.


End insert.



(** ** The list stays well formed *)

Lemma list_item_del_wf p st : list_wf st → list_wf (list_item_del p st).
Proof. unfold list_wf, list_item_del; cbn. apply NoDup_filter. Qed.

Lemma schedule_task_del_wf p st :
  list_wf st → list_wf (schedule_task_del p st).2.
Proof.
  intros Hwf. unfold schedule_task_del.
  destruct (decide (state (task_at st p) = TASK_STATE_RUNNING)); [done|].
  by apply list_item_del_wf.
Qed.

Lemma schedule_task_complete_wf p st :
  list_wf st → list_wf (schedule_task_complete p st).
Proof. intros Hwf. by apply list_item_del_wf. Qed.

(** Inserting a task that is not linked keeps every task linked once. *)
Lemma schedule_task_wf `{pf : Platform} p start_us deadline_us current st :
  list_wf st → p ∉ sch_list st →
  list_wf (schedule_task p start_us deadline_us current st).
Proof.
  intros Hwf Hp.
  destruct (decide (state (task_at st p) = TASK_STATE_RUNNING)) as [Hr|Hn].
  { by rewrite schedule_task_running. }
  destruct (schedule_task_accepted p start_us deadline_us current st Hn)
    as (_ & Hl & _).
  specialize (Hl Hp).
  unfold list_wf in *. rewrite Hl. apply NoDup_app.
  split; [done|]. split; [|apply NoDup_singleton].
  intros x Hx ->%list_elem_of_singleton. done.
Qed.

(** ** The selector's loop body *)

Lemma task_cases current tk :
  state tk ≠ TASK_STATE_QUEUED ∨ live current tk ∨ missed current tk.
Proof.
  unfold live, missed.
  destruct (decide (state tk = TASK_STATE_QUEUED)); [|by left].
  destruct (Z.lt_ge_cases current (effective_deadline tk)); [right; left|right; right]; done.
Qed.

Lemma live_not_missed current tk : live current tk → ¬ missed current tk.
Proof. unfold live, missed. lia. Qed.

Lemma wrap_int_succ z : 0 <= z → z + 1 <= INT_MAX → wrap_int (z + 1) = z + 1.
Proof.
  unfold wrap_int, INT_MAX. intros H0 H1.
  rewrite Z.mod_small; lia.
Qed.

Lemma edf_visit_skip current loc st p :
  state (task_at st p) ≠ TASK_STATE_QUEUED →
  edf_visit current (loc, st) p = (loc, st).
Proof.
  intros Hs. unfold edf_visit.
  destruct (decide (state (task_at st p) ≠ TASK_STATE_QUEUED)); done.
Qed.

Lemma edf_visit_live current loc st p :
  live current (task_at st p) →
  edf_visit current (loc, st) p
  = (if slack current (task_at st p) <? next_delta loc
     then EdfLocals (Some p) (slack current (task_at st p)) (reschedule loc)
     else loc, st).
Proof.
  intros [Hs Hl]. unfold edf_visit, slack.
  destruct (decide (state (task_at st p) ≠ TASK_STATE_QUEUED)); [done|].
  destruct (Z.ltb_spec current (effective_deadline (task_at st p))); [|lia].
  by destruct (_ <? next_delta loc).
Qed.

Lemma edf_visit_missed current loc st p :
  missed current (task_at st p) →
  edf_visit current (loc, st) p
  = (EdfLocals (next_task loc) (next_delta loc) (wrap_int (reschedule loc + 1)),
     if decide (reschedule loc = 0)
     then store_task p (set_state TASK_STATE_CANCEL (task_at st p))
            (list_item_del p st)
     else store_task p (edf_reschedule (task_at st p) current) st).
Proof.
  intros [Hs Hl]. unfold edf_visit.
  destruct (decide (state (task_at st p) ≠ TASK_STATE_QUEUED)); [done|].
  destruct (Z.ltb_spec current (effective_deadline (task_at st p))); [lia|].
  destruct (Z.eqb_spec (reschedule loc) 0), (decide (reschedule loc = 0)); done.
Qed.

Lemma edf_scan_cons current p items s :
  edf_scan current (p :: items) s = edf_scan current items (edf_visit current s p).
Proof. reflexivity. Qed.

Lemma edf_scan_app current l1 l2 s :
  edf_scan current (l1 ++ l2) s = edf_scan current l2 (edf_scan current l1 s).
Proof. unfold edf_scan. apply foldl_app. Qed.

(** A stretch of the list without missed tasks leaves memory and the miss
    counter alone. *)
Lemma edf_scan_no_miss current items loc st :
  (∀ x, x ∈ items → ¬ missed current (task_at st x)) →
  (edf_scan current items (loc, st)).2 = st ∧
  reschedule (edf_scan current items (loc, st)).1 = reschedule loc.
Proof.
  revert loc. induction items as [|p items IH]; intros loc Hno; [done|].
  rewrite edf_scan_cons.
  assert (Hrest : ∀ x, x ∈ items → ¬ missed current (task_at st x))
    by (intros x Hx; apply Hno; by right).
  destruct (task_cases current (task_at st p)) as [Hs|[Hl|Hm]].
  - rewrite edf_visit_skip by done. by apply IH.
  - rewrite edf_visit_live by done.
    destruct (IH (if slack current (task_at st p) <? next_delta loc
                  then EdfLocals (Some p) (slack current (task_at st p))
                         (reschedule loc)
                  else loc) Hrest) as [-> ->].
    split; [done|]. by destruct (_ <? _).
  - exfalso. apply (Hno p); [by left|done].
Qed.

(** Once the miss counter is positive, every missed task of the remaining
    items is rescheduled in place and the list is not touched. *)
Lemma edf_scan_later current items loc st :
  NoDup items →
  1 <= reschedule loc →
  reschedule loc + Z.of_nat (length items) <= INT_MAX →
  sch_list (edf_scan current items (loc, st)).2 = sch_list st ∧
  ∀ q : nat,
    task_at (edf_scan current items (loc, st)).2 q
    = if decide (q ∈ items ∧ missed current (task_at st q))
      then edf_reschedule (task_at st q) current
      else task_at st q.
Proof.
  revert loc st. induction items as [|p items IH]; intros loc st Hnd Hrs Hlen.
  { split; [done|]. intros q. case_decide as Hq; [|done].
    destruct Hq as [Hq _]. by apply elem_of_nil in Hq. }
  apply NoDup_cons in Hnd as [Hp Hnd]. cbn [length] in Hlen.
  rewrite edf_scan_cons.
  destruct (decide (missed current (task_at st p))) as [Hm|Hnm].
  - rewrite edf_visit_missed by done.
    destruct (decide (reschedule loc = 0)) as [Hz|_]; [lia|].
    set (loc' := EdfLocals _ _ _).
    set (st1 := store_task p _ st).
    assert (Hrs' : reschedule loc' = reschedule loc + 1)
      by (apply wrap_int_succ; lia).
    destruct (IH loc' st1 Hnd) as [Hl Htk]; [lia|lia|].
    split; [by rewrite Hl|]. intros q. rewrite Htk.
    destruct (decide (q = p)) as [->|Hqp].
    + rewrite decide_False by tauto. rewrite decide_True by (split; [by left|done]).
      apply task_at_store_eq.
    + assert (Hsame : task_at st1 q = task_at st q)
        by (apply task_at_store_ne; done).
      rewrite Hsame.
      destruct (decide (q ∈ items ∧ missed current (task_at st q))) as [[Hq Hmq]|Hn].
      * by rewrite decide_True by (split; [by right|done]).
      * rewrite decide_False; [done|]. intros [Hq Hmq]. apply Hn.
        apply elem_of_cons in Hq as [?|?]; done.
  - assert (Hv : ∃ loc', edf_visit current (loc, st) p = (loc', st)
                         ∧ reschedule loc' = reschedule loc).
    { destruct (task_cases current (task_at st p)) as [Hs|[Hl|Hm]]; [| |done].
      - exists loc. by rewrite edf_visit_skip.
      - rewrite edf_visit_live by done. eexists; split; [reflexivity|].
        by destruct (_ <? _). }
    destruct Hv as (loc' & -> & Hrs').
    destruct (IH loc' st Hnd) as [Hl Htk]; [lia|lia|].
    split; [done|]. intros q. rewrite Htk.
    destruct (decide (q ∈ items ∧ missed current (task_at st q))) as [[Hq Hmq]|Hn].
    + by rewrite decide_True by (split; [by right|done]).
    + rewrite decide_False; [done|]. intros [Hq Hmq]. apply Hn.
      apply elem_of_cons in Hq as [->|?]; done.
Qed.

(** What a traversal can do to memory, whatever the miss counter holds:
    only missed tasks of the traversed items change, each either cancelled
    or rescheduled, and the list only shrinks. *)
Lemma edf_scan_effect current items loc st :
  NoDup items →
  sch_clock (edf_scan current items (loc, st)).2 = sch_clock st ∧
  irq_pending (edf_scan current items (loc, st)).2 = irq_pending st ∧
  work_timeout (edf_scan current items (loc, st)).2 = work_timeout st ∧
  (∀ q, q ∈ sch_list (edf_scan current items (loc, st)).2 → q ∈ sch_list st) ∧
  ∀ q : nat,
    (¬ (q ∈ items ∧ missed current (task_at st q)) →
     task_at (edf_scan current items (loc, st)).2 q = task_at st q ∧
     (q ∈ sch_list st → q ∈ sch_list (edf_scan current items (loc, st)).2)) ∧
    (q ∈ items → missed current (task_at st q) →
     task_at (edf_scan current items (loc, st)).2 q
     = set_state TASK_STATE_CANCEL (task_at st q)
     ∨ task_at (edf_scan current items (loc, st)).2 q
       = edf_reschedule (task_at st q) current).
Proof.
  revert loc st. induction items as [|p items IH]; intros loc st Hnd.
  { repeat split; try done. intros Hq. by apply elem_of_nil in Hq. }
  apply NoDup_cons in Hnd as [Hp Hnd].
  rewrite edf_scan_cons.
  destruct (decide (missed current (task_at st p))) as [Hm|Hnm].
  - rewrite edf_visit_missed by done.
    set (loc' := EdfLocals _ _ _).
    set (st1 := if decide (reschedule loc = 0) then _ else _).
    assert (Hfr : sch_clock st1 = sch_clock st ∧ irq_pending st1 = irq_pending st
                  ∧ work_timeout st1 = work_timeout st)
      by (subst st1; by destruct (decide (reschedule loc = 0))).
    assert (Hsub : ∀ q, q ∈ sch_list st1 → q ∈ sch_list st ∧
                        (reschedule loc = 0 → q ≠ p)).
    { subst st1. intros q. destruct (decide (reschedule loc = 0)).
      - rewrite sch_list_store_task, elem_of_list_item_del. tauto.
      - rewrite sch_list_store_task. tauto. }
    assert (Hkeep : ∀ q, q ≠ p → q ∈ sch_list st → q ∈ sch_list st1).
    { subst st1. intros q Hq. destruct (decide (reschedule loc = 0)).
      - rewrite sch_list_store_task, elem_of_list_item_del. tauto.
      - by rewrite sch_list_store_task. }
    assert (Hoth : ∀ q, q ≠ p → task_at st1 q = task_at st q).
    { subst st1. intros q Hq. destruct (decide (reschedule loc = 0)).
      - rewrite task_at_store_ne by done. apply task_at_list_item_del.
      - by rewrite task_at_store_ne. }
    assert (Hself : task_at st1 p = set_state TASK_STATE_CANCEL (task_at st p)
                    ∨ task_at st1 p = edf_reschedule (task_at st p) current).
    { subst st1. destruct (decide (reschedule loc = 0));
        rewrite task_at_store_eq; [by left|by right]. }
    destruct (IH loc' st1 Hnd) as (Hc & Hi & Hw & Hl & Htk).
    destruct Hfr as (Hc1 & Hi1 & Hw1).
    split; [congruence|]. split; [congruence|]. split; [congruence|].
    split; [intros q Hq; by apply Hsub, Hl|].
    intros q. destruct (decide (q = p)) as [->|Hqp].
    + destruct (Htk p) as [Hun _]. destruct Hun as [Hun _]; [tauto|].
      split; [intros Hn; exfalso; apply Hn; split; [by left|done]|].
      intros _ _. by rewrite Hun.
    + destruct (Htk q) as [Hun Hmi]. rewrite (Hoth q Hqp) in Hun, Hmi.
      split.
      * intros Hn. destruct Hun as [Hun Hin].
        { intros [Hq Hmq]. apply Hn. split; [by right|done]. }
        split; [exact Hun|]. intros Hq. by apply Hin, Hkeep.
      * intros Hq Hmq. apply elem_of_cons in Hq as [?|Hq]; [done|].
        by apply Hmi.
  - assert (Hv : ∃ loc', edf_visit current (loc, st) p = (loc', st)).
    { destruct (task_cases current (task_at st p)) as [Hs|[Hl|Hm]]; [| |done].
      - exists loc. by rewrite edf_visit_skip.
      - rewrite edf_visit_live by done. by eexists. }
    destruct Hv as (loc' & ->).
    destruct (IH loc' st Hnd) as (Hc & Hi & Hw & Hl & Htk).
    split; [done|]. split; [done|]. split; [done|]. split; [done|].
    intros q. destruct (Htk q) as [Hun Hmi]. split.
    + intros Hn. apply Hun. intros [Hq Hmq]. apply Hn. split; [by right|done].
    + intros Hq Hmq. apply elem_of_cons in Hq as [->|Hq]; [done|]. by apply Hmi.
Qed.

Lemma edf_get_next_scan current ignore st :
  edf_get_next current ignore st
  = (next_task (edf_scan current (sch_list st)
                  (EdfLocals None UINT64_MAX 0, st)).1,
     (edf_scan current (sch_list st) (EdfLocals None UINT64_MAX 0, st)).2).
Proof.
  unfold edf_get_next. destruct (sch_list st) as [|p items]; [done|].
  by destruct (edf_scan current (p :: items) _).
Qed.

Lemma filter_ne_absent (m : nat) (l : list nat) :
  m ∉ l → filter (λ q, q ≠ m) l = l.
Proof.
  induction l as [|x l IH]; [done|].
  intros [Hx Hl]%not_elem_of_cons.
  rewrite filter_cons_True by done. by rewrite IH.
Qed.

Lemma filter_ne_middle (m : nat) (l1 l2 : list nat) :
  NoDup (l1 ++ m :: l2) → filter (λ q, q ≠ m) (l1 ++ m :: l2) = l1 ++ l2.
Proof.
  intros (Hnd1 & Hdis & Hnd2)%NoDup_app.
  apply NoDup_cons in Hnd2 as [Hm2 _].
  assert (Hm1 : m ∉ l1) by (intros Hin; apply (Hdis m Hin); by left).
  rewrite filter_app, filter_cons_False by tauto.
  by rewrite !filter_ne_absent.
Qed.

(** ** Miss policy of a selector pass *)

(** C1: in one pass of [edf_get_next], the first task in list order that
    is queued with its effective deadline [deadline - max_rtime] at or
    before [current] is unlinked and set to [TASK_STATE_CANCEL]; every
    later such task is replaced by its [edf_reschedule] image, stays linked
    and stays queued; tasks that did not miss are untouched. *)
Theorem edf_get_next_miss_policy (current : Z) (ignore : option nat)
    (st : sched) (l1 : list nat) (m : nat) (l2 : list nat) :
  list_wf st →
  Z.of_nat (length (sch_list st)) <= INT_MAX →
  sch_list st = l1 ++ m :: l2 →
  (∀ x, x ∈ l1 → ¬ missed current (task_at st x)) →
  missed current (task_at st m) →
  let st' := (edf_get_next current ignore st).2 in
  task_at st' m = set_state TASK_STATE_CANCEL (task_at st m) ∧
  (m ∉ sch_list st') ∧
  sch_list st' = l1 ++ l2 ∧
  (∀ q, q ∈ l2 → missed current (task_at st q) →
     task_at st' q = edf_reschedule (task_at st q) current ∧
     state (task_at st' q) = TASK_STATE_QUEUED ∧
     q ∈ sch_list st') ∧
  (∀ q, ¬ missed current (task_at st q) → task_at st' q = task_at st q).
Proof.
  unfold list_wf. intros Hnd Hlen Hsplit Hfirst Hm. cbv zeta.
  rewrite edf_get_next_scan. cbn [snd].
  rewrite Hsplit in Hnd, Hlen |- *.
  pose proof (filter_ne_middle m l1 l2 Hnd) as Hfilter.
  apply NoDup_app in Hnd as (Hnd1 & Hdis & Hnd2).
  apply NoDup_cons in Hnd2 as [Hm2 Hnd2].
  assert (Hm1 : m ∉ l1) by (intros Hin; apply (Hdis m Hin); by left).
  rewrite length_app in Hlen. cbn [length] in Hlen.
  rewrite edf_scan_app, edf_scan_cons.
  destruct (edf_scan_no_miss current l1 (EdfLocals None UINT64_MAX 0) st Hfirst)
    as [Hst1 Hrs1].
  destruct (edf_scan current l1 (EdfLocals None UINT64_MAX 0, st))
    as [loc1 st1]. cbn [fst snd reschedule] in Hst1, Hrs1. subst st1.
  rewrite edf_visit_missed by done.
  rewrite decide_True by done. rewrite Hrs1.
  set (loc2 := EdfLocals _ _ _).
  set (st2 := store_task m _ _).
  assert (Hrs2 : reschedule loc2 = 1) by reflexivity.
  destruct (edf_scan_later current l2 loc2 st2 Hnd2) as [Hl Htk];
    [lia|rewrite Hrs2; lia|].
  assert (Hl2 : sch_list st2 = l1 ++ l2).
  { subst st2. rewrite sch_list_store_task. unfold list_item_del; cbn.
    by rewrite Hsplit. }
  assert (Hoth : ∀ q, q ≠ m → task_at st2 q = task_at st q).
  { intros q Hq. subst st2. rewrite task_at_store_ne by done.
    apply task_at_list_item_del. }
  rewrite Hl, Hl2.
  split.
  { rewrite Htk, decide_False by tauto. subst st2. apply task_at_store_eq. }
  split; [rewrite not_elem_of_app; tauto|].
  split; [done|]. split.
  - intros q Hq Hmq.
    assert (Hqm : q ≠ m) by (intros ->; done).
    rewrite Htk, (Hoth q Hqm), decide_True by done.
    split; [done|]. split.
    + destruct (edf_reschedule_fields (task_at st q) current) as (_ & -> & _).
      by destruct Hmq.
    + apply elem_of_app. by right.
  - intros q Hq.
    assert (Hqm : q ≠ m) by (intros ->; done).
    rewrite Htk, (Hoth q Hqm). by rewrite decide_False by tauto.
Qed.

Lemma edf_get_next_miss_policy_witness :
  list_wf three_tasks ∧
  missed 50 (task_at three_tasks 1%nat) ∧
  missed 50 (task_at three_tasks 2%nat) ∧
  task_at (edf_get_next 50 None three_tasks).2 1%nat
  = Task TASK_STATE_CANCEL 0 10 0 ∧
  sch_list (edf_get_next 50 None three_tasks).2 = [2%nat; 3%nat] ∧
  task_at (edf_get_next 50 None three_tasks).2 2%nat
  = Task TASK_STATE_QUEUED 120 160 0.
Proof.
  assert (Hwf : list_wf three_tasks) by (unfold list_wf; compute_done).
  assert (Hm1 : missed 50 (task_at three_tasks 1%nat)) by compute_done.
  assert (Hm2 : missed 50 (task_at three_tasks 2%nat)) by compute_done.
  destruct (edf_get_next_miss_policy 50 None three_tasks [] 1%nat [2%nat; 3%nat])
    as (H1 & _ & Hl & Hlater & _);
    [exact Hwf|compute_done|reflexivity|by intros x ?%elem_of_nil|exact Hm1|].
  split; [exact Hwf|]. split; [exact Hm1|]. split; [exact Hm2|].
  split; [exact H1|]. split; [exact Hl|].
  destruct (Hlater 2%nat) as (H2 & _); [by left|exact Hm2|exact H2].
Defined.

(** ** Selection *)

Lemma first_least_head current st p items :
  live current (task_at st p) →
  (∀ x, x ∈ items → live current (task_at st x) →
     slack current (task_at st p) <= slack current (task_at st x)) →
  first_least current st (p :: items) p.
Proof.
  intros Hl Hall. exists [], items.
  split; [done|]. split; [done|]. split; [|done].
  intros x Hx. by apply elem_of_nil in Hx.
Qed.

Lemma first_least_tail current st p items q :
  first_least current st items q →
  (live current (task_at st p) →
   slack current (task_at st q) < slack current (task_at st p)) →
  first_least current st (p :: items) q.
Proof.
  intros (l1 & l2 & -> & Hq & Hl1 & Hl2) Hp. exists (p :: l1), l2.
  split; [done|]. split; [done|]. split; [|done].
  intros x [->|Hx]%elem_of_cons Hlx; [by apply Hp|by apply Hl1].
Qed.

(** The candidate a traversal ends with: either no live task of the
    traversed items beats the incoming [next_delta], or the result is the
    first live task of least slack among them.  Tasks are judged as they
    are in [st0], the memory on entry of the pass. *)
Lemma edf_scan_min current st0 items loc st :
  NoDup items →
  (∀ x, x ∈ items → task_at st x = task_at st0 x) →
  ((∀ x, x ∈ items → live current (task_at st0 x) →
      next_delta loc <= slack current (task_at st0 x)) ∧
   next_task (edf_scan current items (loc, st)).1 = next_task loc ∧
   next_delta (edf_scan current items (loc, st)).1 = next_delta loc)
  ∨ (∃ q,
       first_least current st0 items q ∧
       slack current (task_at st0 q) < next_delta loc ∧
       next_task (edf_scan current items (loc, st)).1 = Some q ∧
       next_delta (edf_scan current items (loc, st)).1
       = slack current (task_at st0 q)).
Proof.
  revert loc st. induction items as [|p items IH]; intros loc st Hnd Hsame.
  { left. split; [|done]. intros x Hx. by apply elem_of_nil in Hx. }
  apply NoDup_cons in Hnd as [Hp Hnd].
  assert (Hp0 : task_at st p = task_at st0 p) by (apply Hsame; by left).
  assert (Hrest : ∀ x, x ∈ items → task_at st x = task_at st0 x)
    by (intros x Hx; apply Hsame; by right).
  rewrite edf_scan_cons.
  (* a head that leaves the candidate as it is *)
  assert (Hext : ∀ loc' st',
    edf_visit current (loc, st) p = (loc', st') →
    next_task loc' = next_task loc → next_delta loc' = next_delta loc →
    (∀ x, x ∈ items → task_at st' x = task_at st0 x) →
    (live current (task_at st0 p) →
     next_delta loc <= slack current (task_at st0 p)) →
    ((∀ x, x ∈ p :: items → live current (task_at st0 x) →
        next_delta loc <= slack current (task_at st0 x)) ∧
     next_task (edf_scan current items (edf_visit current (loc, st) p)).1
     = next_task loc ∧
     next_delta (edf_scan current items (edf_visit current (loc, st) p)).1
     = next_delta loc)
    ∨ (∃ q,
         first_least current st0 (p :: items) q ∧
         slack current (task_at st0 q) < next_delta loc ∧
         next_task (edf_scan current items (edf_visit current (loc, st) p)).1
         = Some q ∧
         next_delta (edf_scan current items (edf_visit current (loc, st) p)).1
         = slack current (task_at st0 q))).
  { intros loc' st' -> Hnt Hndl Hsame' Hhead.
    destruct (IH loc' st' Hnd Hsame')
      as [(Hall & Hrt & Hrd)|(q & Hfl & Hlt & Hrt & Hrd)].
    - left. rewrite Hrt, Hrd. split; [|done].
      intros x [->|Hx]%elem_of_cons Hlx; [by apply Hhead|].
      rewrite <- Hndl. by apply Hall.
    - right. exists q. rewrite Hndl in Hlt.
      split; [|done]. apply first_least_tail; [done|].
      intros Hlp. specialize (Hhead Hlp). lia. }
  destruct (task_cases current (task_at st p)) as [Hs|[Hl|Hm]].
  - (* not queued: skipped *)
    apply (Hext loc st); try done.
    + by apply edf_visit_skip.
    + intros [Hq _]. by rewrite <- Hp0 in Hq.
  - (* a live task *)
    pose proof (edf_visit_live current loc st p Hl) as Hv.
    destruct (Z.ltb_spec (slack current (task_at st p)) (next_delta loc))
      as [Hbeat|Hkeep].
    + rewrite Hv. rewrite Hp0 in Hl, Hbeat |- *.
      destruct (IH (EdfLocals (Some p) (slack current (task_at st0 p))
                      (reschedule loc)) st Hnd Hrest)
        as [(Hall & Hrt & Hrd)|(q & Hfl & Hlt & Hrt & Hrd)];
        cbn [next_task next_delta] in *.
      * right. exists p. split; [by apply first_least_head|done].
      * right. exists q. split; [by apply first_least_tail|].
        split; [lia|done].
    + apply (Hext loc st); try done.
      intros _. by rewrite <- Hp0.
  - (* a missed task: memory changes at [p] only *)
    pose proof (edf_visit_missed current loc st p Hm) as Hv.
    apply (Hext _ _ Hv); try done.
    + intros x Hx. assert (x ≠ p) by (intros ->; done).
      rewrite <- (Hrest x Hx).
      destruct (decide (reschedule loc = 0)).
      * rewrite task_at_store_ne by done. apply task_at_list_item_del.
      * by rewrite task_at_store_ne.
    + intros Hlp. rewrite <- Hp0 in Hlp. by apply live_not_missed in Hlp.
Qed.

Lemma edf_get_next_effect current ignore st :
  list_wf st →
  sch_clock (edf_get_next current ignore st).2 = sch_clock st ∧
  irq_pending (edf_get_next current ignore st).2 = irq_pending st ∧
  work_timeout (edf_get_next current ignore st).2 = work_timeout st ∧
  (∀ q, q ∈ sch_list (edf_get_next current ignore st).2 → q ∈ sch_list st) ∧
  ∀ q : nat,
    (¬ (q ∈ sch_list st ∧ missed current (task_at st q)) →
     task_at (edf_get_next current ignore st).2 q = task_at st q ∧
     (q ∈ sch_list st → q ∈ sch_list (edf_get_next current ignore st).2)) ∧
    (q ∈ sch_list st → missed current (task_at st q) →
     task_at (edf_get_next current ignore st).2 q
     = set_state TASK_STATE_CANCEL (task_at st q)
     ∨ task_at (edf_get_next current ignore st).2 q
       = edf_reschedule (task_at st q) current).
Proof.
  intros Hwf. rewrite edf_get_next_scan. cbn [snd].
  by apply edf_scan_effect.
Qed.

(** Whatever [edf_get_next] returns is the first live task of least slack,
    its slack is below the initial [next_delta], and the pass has not
    touched it. *)
Lemma edf_get_next_selected current ignore st p :
  list_wf st →
  (edf_get_next current ignore st).1 = Some p →
  first_least current st (sch_list st) p ∧
  slack current (task_at st p) < UINT64_MAX ∧
  task_at (edf_get_next current ignore st).2 p = task_at st p ∧
  p ∈ sch_list (edf_get_next current ignore st).2.
Proof.
  intros Hwf Hsel.
  destruct (edf_get_next_effect current ignore st Hwf) as (_ & _ & _ & _ & Htk).
  rewrite edf_get_next_scan in Hsel. cbn [fst] in Hsel.
  destruct (edf_scan_min current st (sch_list st)
              (EdfLocals None UINT64_MAX 0) st Hwf)
    as [(_ & Hnt & _)|(q & Hfl & Hlt & Hnt & _)]; [done| |].
  { rewrite Hnt in Hsel. discriminate. }
  rewrite Hnt in Hsel. injection Hsel as ->.
  split; [done|]. split; [done|].
  destruct Hfl as (l1 & l2 & Hl & Hlive & _).
  assert (Hin : p ∈ sch_list st)
    by (rewrite Hl; apply elem_of_app; right; by left).
  destruct (Htk p) as [Hun _]. destruct Hun as [Hun Hkeep].
  { intros [_ Hm]. by apply live_not_missed in Hlive. }
  split; [done|by apply Hkeep].
Qed.

(** When [edf_get_next] returns nothing, no live task has slack below
    the initial [next_delta]. *)
Lemma edf_get_next_none current ignore st :
  list_wf st →
  (edf_get_next current ignore st).1 = None →
  ∀ x, x ∈ sch_list st → live current (task_at st x) →
       UINT64_MAX <= slack current (task_at st x).
Proof.
  intros Hwf Hsel. rewrite edf_get_next_scan in Hsel. cbn [fst] in Hsel.
  destruct (edf_scan_min current st (sch_list st)
              (EdfLocals None UINT64_MAX 0) st Hwf)
    as [(Hall & _)|(q & _ & _ & Hnt & _)]; [done|exact Hall|].
  rewrite Hnt in Hsel. discriminate.
Qed.

Lemma first_least_unique current st items q q' :
  NoDup items →
  first_least current st items q → first_least current st items q' → q = q'.
Proof.
  intros Hnd (l1 & l2 & Hl & Hq & Hb & Ha) (l1' & l2' & Hl' & Hq' & Hb' & Ha').
  destruct (decide (q = q')) as [|Hne]; [done|exfalso].
  assert (Hpos : items !! length l1 = Some q)
    by (rewrite Hl; apply list_lookup_middle; done).
  assert (Hpos' : items !! length l1' = Some q')
    by (rewrite Hl'; apply list_lookup_middle; done).
  assert (Hq'in : q' ∈ l1 ∨ q' ∈ l2).
  { assert (Hin : q' ∈ items) by (rewrite Hl'; apply elem_of_app; right; by left).
    rewrite Hl in Hin. apply elem_of_app in Hin as [?|Hin]; [by left|].
    apply elem_of_cons in Hin as [?|?]; [done|by right]. }
  assert (Hqin : q ∈ l1' ∨ q ∈ l2').
  { assert (Hin : q ∈ items) by (rewrite Hl; apply elem_of_app; right; by left).
    rewrite Hl' in Hin. apply elem_of_app in Hin as [?|Hin]; [by left|].
    apply elem_of_cons in Hin as [?|?]; [done|by right]. }
  destruct Hq'in as [Hi|Hi], Hqin as [Hj|Hj].
  - specialize (Hb q' Hi Hq'). specialize (Hb' q Hj Hq). lia.
  - specialize (Hb q' Hi Hq'). specialize (Ha' q Hj Hq). lia.
  - specialize (Ha q' Hi Hq'). specialize (Hb' q Hj Hq). lia.
  - apply list_elem_of_lookup in Hi as [k Hk].
    apply list_elem_of_lookup in Hj as [k' Hk'].
    assert (H1 : items !! (length l1 + S k)%nat = Some q').
    { rewrite Hl, lookup_app_r by lia.
      replace (length l1 + S k - length l1)%nat with (S k) by lia. done. }
    assert (H2 : items !! (length l1' + S k')%nat = Some q).
    { rewrite Hl', lookup_app_r by lia.
      replace (length l1' + S k' - length l1')%nat with (S k') by lia. done. }
    pose proof (NoDup_lookup _ _ _ _ Hnd Hpos' H1).
    pose proof (NoDup_lookup _ _ _ _ Hnd Hpos H2). lia.
Qed.

(** The selector on a list of live tasks: when some task has slack below
    [UINT64_MAX], the pass returns the first task of least slack and changes
    nothing. *)
Lemma edf_get_next_live_min current ignore st q :
  list_wf st →
  (∀ x, x ∈ sch_list st → live current (task_at st x)) →
  first_least current st (sch_list st) q →
  slack current (task_at st q) < UINT64_MAX →
  edf_get_next current ignore st = (Some q, st).
Proof.
  intros Hwf Hlive Hfl Hlt.
  assert (Hst : (edf_get_next current ignore st).2 = st).
  { rewrite edf_get_next_scan. cbn [snd]. apply edf_scan_no_miss.
    intros x Hx. apply live_not_missed. by apply Hlive. }
  destruct (edf_get_next current ignore st) as [r st'] eqn:Hr.
  cbn [snd] in Hst. subst st'. f_equal.
  destruct r as [p|].
  - f_equal. apply (first_least_unique current st (sch_list st)); [done| |done].
    apply (edf_get_next_selected current ignore st p Hwf). by rewrite Hr.
  - exfalso.
    assert (Hn : (edf_get_next current ignore st).1 = None) by (by rewrite Hr).
    destruct Hfl as (l1 & l2 & Hl & Hq & _).
    assert (Hin : q ∈ sch_list st)
      by (rewrite Hl; apply elem_of_app; right; by left).
    pose proof (edf_get_next_none current ignore st Hwf Hn q Hin Hq). lia.
Qed.

(** ** The timing invariant *)

Lemma edf_reschedule_start_cases tk current :
  start (edf_reschedule tk current) = add64 current (window tk)
  ∨ ∃ k : nat, (1 ≤ k ≤ 10)%nat ∧
               start (edf_reschedule tk current) = advanced_start tk k.
Proof.
  unfold edf_reschedule, edf_reschedule_run. fold (window tk).
  pose proof (slot_align_spec SLOT_ALIGN_TRIES (window tk) current tk 0) as H.
  destruct (slot_align SLOT_ALIGN_TRIES (window tk) current tk 0)
    as [[tk' n] [|]]; cbn [fst set_start set_deadline start].
  - destruct H as (_ & _ & k & Hk & _ & Hst & _). right. by exists k.
  - by left.
Qed.

(** Recovery of a well-ordered task, far from the end of the tick range,
    yields a well-ordered task. *)
Lemma edf_reschedule_keeps_order bound tk current :
  23 * bound <= UINT64_MAX →
  0 <= current <= bound →
  0 <= start tk → start tk < deadline tk → deadline tk <= bound →
  0 <= start (edf_reschedule tk current) ∧
  start (edf_reschedule tk current) < deadline (edf_reschedule tk current) ∧
  deadline (edf_reschedule tk current) <= 23 * bound.
Proof.
  intros Hb Hc Hs Hsd Hd.
  assert (Hw : window tk = 2 * (deadline tk - start tk)).
  { rewrite window_eq. apply wrap64_small. unfold uint64. lia. }
  destruct (edf_reschedule_fields tk current) as (Hdl & _ & _).
  assert (Hst : 0 <= start (edf_reschedule tk current)
                <= 21 * bound).
  { destruct (edf_reschedule_start_cases tk current) as [->|(k & Hk & ->)].
    - unfold add64. rewrite Hw, wrap64_small; unfold uint64; lia.
    - unfold advanced_start. rewrite Hw, wrap64_small; unfold uint64; nia. }
  rewrite Hdl, wrap64_small; unfold uint64; lia.
Qed.

Lemma edf_scan_list_wf current items loc st :
  list_wf st → list_wf (edf_scan current items (loc, st)).2.
Proof.
  revert loc st. induction items as [|p items IH]; intros loc st Hwf; [done|].
  rewrite edf_scan_cons.
  destruct (task_cases current (task_at st p)) as [Hs|[Hl|Hm]].
  - rewrite edf_visit_skip by done. by apply IH.
  - rewrite edf_visit_live by done. by apply IH.
  - rewrite edf_visit_missed by done. apply IH.
    destruct (decide (reschedule loc = 0)); [|done].
    unfold list_wf in *. rewrite sch_list_store_task.
    unfold list_item_del; cbn. by apply NoDup_filter.
Qed.

Lemma edf_get_next_list_wf current ignore st :
  list_wf st → list_wf (edf_get_next current ignore st).2.
Proof.
  intros Hwf. rewrite edf_get_next_scan. cbn [snd]. by apply edf_scan_list_wf.
Qed.

(** One selector pass keeps the invariant and stretches the horizon by the
    reach of one recovery. *)
Lemma edf_get_next_keeps_order bound current ignore st :
  23 * bound <= UINT64_MAX →
  list_wf st →
  deadline_after_start st →
  within_horizon bound current st →
  deadline_after_start (edf_get_next current ignore st).2 ∧
  within_horizon (23 * bound) current (edf_get_next current ignore st).2.
Proof.
  intros Hb Hwf Hinv [Hc Hhor].
  destruct (edf_get_next_effect current ignore st Hwf) as (_ & _ & _ & _ & Htk).
  assert (Hall : ∀ q, state (task_at (edf_get_next current ignore st).2 q)
                      = TASK_STATE_QUEUED →
                      0 <= start (task_at (edf_get_next current ignore st).2 q) ∧
                      start (task_at (edf_get_next current ignore st).2 q)
                      < deadline (task_at (edf_get_next current ignore st).2 q) ∧
                      deadline (task_at (edf_get_next current ignore st).2 q)
                      <= 23 * bound).
  { intros q Hq. destruct (Htk q) as [Hun Hmi].
    destruct (decide (q ∈ sch_list st ∧ missed current (task_at st q)))
      as [[Hin Hm]|Hn].
    - destruct (Hmi Hin Hm) as [Hcan|Hres].
      + rewrite Hcan in Hq. discriminate Hq.
      + rewrite Hres. destruct Hm as [Hsq _].
        destruct (Hhor q Hsq). specialize (Hinv q Hsq).
        by apply (edf_reschedule_keeps_order bound).
    - destruct (Hun Hn) as [Heq _]. rewrite Heq in Hq |- *.
      destruct (Hhor q Hq). specialize (Hinv q Hq). lia. }
  split.
  - intros q Hq. by apply Hall.
  - split; [lia|]. intros q Hq. destruct (Hall q Hq). lia.
Qed.

(** ** The driver *)

Section driver.
Context `{pf : Platform}.

Lemma schedule_edf_idle current st :
  (edf_get_next current None st).1 = None →
  schedule_edf current st
  = (None, interrupt_clear (edf_get_next current None st).2).
Proof.
  intros Hsel. unfold schedule_edf.
  destruct (edf_get_next current None st) as [r st1]. cbn in Hsel. by subst r.
Qed.

Lemma schedule_edf_future current st p :
  (edf_get_next current None st).1 = Some p →
  current < start (task_at (edf_get_next current None st).2 p) →
  schedule_edf current st
  = (Some p, interrupt_clear (edf_get_next current None st).2).
Proof.
  intros Hsel Hfut. unfold schedule_edf.
  destruct (edf_get_next current None st) as [r st1]. cbn in Hsel, Hfut. subst r.
  rewrite task_at_interrupt_clear.
  by destruct (Z.ltb_spec current (start (task_at st1 p))); [|lia].
Qed.

Lemma schedule_edf_due current st p :
  (edf_get_next current None st).1 = Some p →
  start (task_at (edf_get_next current None st).2 p) <= current →
  schedule_edf current st
  = ((edf_get_next current (Some p)
        (interrupt_clear (edf_get_next current None st).2)).1,
     arch_run_task p (dispatch_state current p st)).
Proof.
  intros Hsel Hdue. unfold schedule_edf, dispatch_state.
  destruct (edf_get_next current None st) as [r st1]. cbn in Hsel, Hdue. subst r.
  rewrite task_at_interrupt_clear.
  destruct (Z.ltb_spec current (start (task_at st1 p))); [lia|].
  cbn [fst snd].
  by destruct (edf_get_next current (Some p) (interrupt_clear st1)).
Qed.

(** C9: when the task [edf_get_next] selects has its start after
    [current], [schedule_edf] returns that task without calling the
    executor, the task object is exactly as it was before the pass and is
    still linked, and [scheduler_run] arms the work at the task's start. *)
Theorem schedule_edf_future_task (current : Z) (st : sched) (p : nat) :
  list_wf st →
  (edf_get_next current None st).1 = Some p →
  current < start (task_at (edf_get_next current None st).2 p) →
  schedule_edf current st
  = (Some p, interrupt_clear (edf_get_next current None st).2) ∧
  task_at (schedule_edf current st).2 p = task_at st p ∧
  p ∈ sch_list (schedule_edf current st).2 ∧
  scheduler_run current st
  = work_reschedule_default_at (start (task_at st p))
      (interrupt_clear (edf_get_next current None st).2) ∧
  work_timeout (scheduler_run current st) = Some (start (task_at st p)).
Proof.
  intros Hwf Hsel Hfut.
  pose proof (schedule_edf_future current st p Hsel Hfut) as Hrun.
  destruct (edf_get_next_selected current None st p Hwf Hsel)
    as (_ & _ & Hsame & Hin).
  assert (Hret : task_at (schedule_edf current st).2 p = task_at st p)
    by (rewrite Hrun; cbn [snd]; by rewrite task_at_interrupt_clear).
  split; [exact Hrun|]. split; [exact Hret|]. split.
  { rewrite Hrun. cbn [snd]. by rewrite sch_list_interrupt_clear. }
  assert (Harm : scheduler_run current st
                 = work_reschedule_default_at (start (task_at st p))
                     (interrupt_clear (edf_get_next current None st).2)).
  { unfold scheduler_run. rewrite Hrun.
    by rewrite task_at_interrupt_clear, Hsame. }
  split; [exact Harm|]. by rewrite Harm.
Qed.
End driver.

Lemma schedule_edf_future_task_witness :
  list_wf (@schedule_task sample_platform 1%nat 5000 1000 0
             (one_task TASK_STATE_COMPLETED 0 0 0)) ∧
  (@schedule_edf sample_platform 0
     (@schedule_task sample_platform 1%nat 5000 1000 0
        (one_task TASK_STATE_COMPLETED 0 0 0))).1 = Some 1%nat ∧
  work_timeout
    (@scheduler_run sample_platform 0
       (@schedule_task sample_platform 1%nat 5000 1000 0
          (one_task TASK_STATE_COMPLETED 0 0 0)))
  = Some (19 * 5000 - 5).
Proof.
  assert (Hwf : list_wf (@schedule_task sample_platform 1%nat 5000 1000 0
                           (one_task TASK_STATE_COMPLETED 0 0 0)))
    by (unfold list_wf; compute_done).
  destruct (@schedule_edf_future_task sample_platform 0
              (@schedule_task sample_platform 1%nat 5000 1000 0
                 (one_task TASK_STATE_COMPLETED 0 0 0)) 1%nat)
    as (Hret & _ & _ & _ & Harm); [exact Hwf|reflexivity|compute_done|].
  split; [exact Hwf|]. split; [by rewrite Hret|exact Harm].
Defined.

(** ** A lone due task *)

Section lone_task.
Context `{pf : Platform}.

(** The selector on a list holding one live task. *)
Lemma edf_get_next_lone current ignore st p :
  sch_list st = [p] →
  live current (task_at st p) →
  slack current (task_at st p) < UINT64_MAX →
  edf_get_next current ignore st = (Some p, st).
Proof.
  intros Hl Hlive Hlt.
  apply edf_get_next_live_min; [| | |done].
  - unfold list_wf. rewrite Hl. apply NoDup_singleton.
  - rewrite Hl. by intros x ->%list_elem_of_singleton.
  - rewrite Hl. apply first_least_head; [done|].
    intros x Hx. by apply elem_of_nil in Hx.
Qed.

(** C7, as the code has it: a task inserted alone with [start_us = 0] and
    [deadline_us = 1000] at time [0], whose effective deadline lies ahead, is
    dispatched by the pass at time [0] with [start = 0]; but the second
    selection does not exclude it, so [schedule_edf] returns this very task,
    not [NULL]. *)
Theorem schedule_edf_lone_task_returned (st0 : sched) (a : nat) :
  sch_list st0 = [] →
  state (task_at st0 a) ≠ TASK_STATE_RUNNING →
  0 < effective_deadline (task_at (schedule_task a 0 1000 0 st0) a)
    < UINT64_MAX →
  start (task_at (schedule_task a 0 1000 0 st0) a) = 0 ∧
  schedule_edf 0 (schedule_task a 0 1000 0 st0)
  = (Some a,
     arch_run_task a
       (store_task a (set_start 0 (task_at (schedule_task a 0 1000 0 st0) a))
          (interrupt_clear (schedule_task a 0 1000 0 st0)))) ∧
  (schedule_edf 0 (schedule_task a 0 1000 0 st0)).1 ≠ None.
Proof.
  intros Hempty Hrun Heff.
  destruct (schedule_task_accepted a 0 1000 0 st0 Hrun)
    as (Htk & Hl & _).
  set (st := schedule_task a 0 1000 0 st0) in *.
  rewrite Hempty in Hl. specialize (Hl (not_elem_of_nil a)). cbn in Hl.
  assert (Hstart : start (task_at st a) = 0) by (by rewrite Htk).
  assert (Hlive : live 0 (task_at st a)).
  { split; [by rewrite Htk|lia]. }
  assert (Hslack : slack 0 (task_at st a) < UINT64_MAX).
  { unfold slack, sub64. rewrite Z.sub_0_r, wrap64_small; [lia|].
    unfold effective_deadline, sub64. apply wrap64_range. }
  assert (Hsel : ∀ ignore, edf_get_next 0 ignore st = (Some a, st))
    by (intros ignore; by apply edf_get_next_lone).
  assert (Hsel2 : edf_get_next 0 (Some a) (interrupt_clear st)
                  = (Some a, interrupt_clear st))
    by (by apply edf_get_next_lone).
  assert (Heq : schedule_edf 0 st
                = (Some a,
                   arch_run_task a
                     (store_task a (set_start 0 (task_at st a))
                        (interrupt_clear st)))).
  { rewrite (schedule_edf_due 0 st a); rewrite ?Hsel; cbn [fst snd];
      [|done|lia].
    unfold dispatch_state. rewrite Hsel. cbn [snd]. rewrite Hsel2. done. }
  split; [exact Hstart|]. split; [exact Heq|]. by rewrite Heq.
Qed.
End lone_task.

Lemma schedule_edf_lone_task_returned_witness :
  sch_list (one_task TASK_STATE_COMPLETED 0 0 0) = [] ∧
  (@schedule_edf sample_platform 0
     (@schedule_task sample_platform 1%nat 0 1000 0
        (one_task TASK_STATE_COMPLETED 0 0 0))).1 = Some 1%nat.
Proof.
  split; [reflexivity|].
  destruct (@schedule_edf_lone_task_returned sample_platform
              (one_task TASK_STATE_COMPLETED 0 0 0) 1%nat)
    as (_ & Heq & _); [reflexivity|discriminate|compute_done|].
  by rewrite Heq.
Defined.

(** ** The initial [next_delta] *)

(** C6 at its boundary: a lone queued task with effective deadline
    [UINT64_MAX] is live at time [0] and is the task of least slack, yet its
    slack equals the initial [next_delta], the strict comparison fails and
    [edf_get_next] returns [NULL]. *)
Lemma edf_get_next_sentinel_slack :
  sch_list far_deadline = [1%nat] ∧
  live 0 (task_at far_deadline 1%nat) ∧
  first_least 0 far_deadline (sch_list far_deadline) 1%nat ∧
  slack 0 (task_at far_deadline 1%nat) = UINT64_MAX ∧
  edf_get_next 0 None far_deadline = (None, far_deadline).
Proof.
  assert (Hlive : live 0 (task_at far_deadline 1%nat)) by compute_done.
  split; [reflexivity|]. split; [exact Hlive|].
  split; [|by split].
  apply first_least_head; [done|].
  intros x Hx. by apply elem_of_nil in Hx.
Qed.

(** ** The timing invariant across the operations *)

(** A property of every task object follows from the same property of the
    objects in the heap and of the default object read elsewhere. *)
Lemma heap_Forall_task_at (P : task → Prop) (st : sched) :
  P inhabitant →
  map_Forall (λ _ tk, P tk) (heap st) →
  ∀ p : nat, P (task_at st p).
Proof.
  intros Hdef Hall p. unfold task_at. rewrite lookup_total_alt.
  destruct (heap st !! p) as [tk|] eqn:Hp; cbn; [|done].
  by apply (Hall p).
Qed.

Lemma deadline_after_start_heap (st : sched) :
  map_Forall (λ _ tk, state tk = TASK_STATE_QUEUED → start tk < deadline tk)
    (heap st) →
  deadline_after_start st.
Proof.
  intros Hall.
  exact (heap_Forall_task_at
           (λ tk, state tk = TASK_STATE_QUEUED → start tk < deadline tk)
           st ltac:(discriminate) Hall).
Qed.

Lemma within_horizon_heap (bound current : Z) (st : sched) :
  0 <= current <= bound →
  map_Forall (λ _ tk, state tk = TASK_STATE_QUEUED
                      → 0 <= start tk ∧ deadline tk <= bound) (heap st) →
  within_horizon bound current st.
Proof.
  intros Hc Hall. split; [done|].
  exact (heap_Forall_task_at
           (λ tk, state tk = TASK_STATE_QUEUED
                  → 0 <= start tk ∧ deadline tk <= bound)
           st ltac:(discriminate) Hall).
Qed.

Section invariant.
Context `{pf : Platform}.

Lemma schedule_task_keeps_order p start_us deadline_us current st :
  deadline_after_start st →
  0 <= current →
  0 < clock_us_to_ticks (sch_clock st) deadline_us →
  schedule_task_start p start_us current st
  + clock_us_to_ticks (sch_clock st) deadline_us <= UINT64_MAX →
  deadline_after_start (schedule_task p start_us deadline_us current st).
Proof.
  intros Hinv Hc Hpos Hfit.
  destruct (decide (state (task_at st p) = TASK_STATE_RUNNING)) as [Hr|Hn].
  { by rewrite schedule_task_running. }
  destruct (schedule_task_accepted p start_us deadline_us current st Hn)
    as (Htk & _ & _ & _ & _ & Hoth).
  assert (Hns : 0 <= schedule_task_start p start_us current st).
  { unfold schedule_task_start. destruct (start_us =? 0); [done|].
    apply wrap64_range. }
  intros q Hq. destruct (decide (q = p)) as [->|Hqp].
  - rewrite Htk. cbn [start deadline].
    rewrite wrap64_small; unfold uint64; lia.
  - rewrite (Hoth q Hqp) in Hq |- *. by apply Hinv.
Qed.

Lemma schedule_edf_dispatch_keeps_order current st p :
  list_wf st →
  deadline_after_start st →
  within_horizon TICK_HORIZON current st →
  (edf_get_next current None st).1 = Some p →
  0 <= max_rtime (task_at st p) <= deadline (task_at st p) →
  task_at (dispatch_state current p st) p = set_start current (task_at st p) ∧
  deadline_after_start (dispatch_state current p st).
Proof.
  intros Hwf Hinv Hhor Hsel Hrt.
  assert (Hb1 : 23 * TICK_HORIZON <= UINT64_MAX) by (by vm_compute).
  assert (Hb2 : 23 * (23 * TICK_HORIZON) <= UINT64_MAX) by (by vm_compute).
  destruct (edf_get_next_selected current None st p Hwf Hsel)
    as (Hfl & _ & Hsame1 & _).
  destruct Hfl as (_ & _ & _ & [Hqueued Hlive] & _).
  destruct (edf_get_next_keeps_order TICK_HORIZON current None st Hb1 Hwf Hinv Hhor)
    as [Hinv1 Hhor1].
  pose proof (edf_get_next_list_wf current None st Hwf) as Hwf1.
  unfold dispatch_state.
  set (st2 := interrupt_clear (edf_get_next current None st).2) in *.
  assert (Hwf2 : list_wf st2) by exact Hwf1.
  assert (Hinv2 : deadline_after_start st2) by exact Hinv1.
  assert (Hhor2 : within_horizon (23 * TICK_HORIZON) current st2) by exact Hhor1.
  assert (Hp2 : task_at st2 p = task_at st p) by exact Hsame1.
  destruct (edf_get_next_keeps_order (23 * TICK_HORIZON) current (Some p) st2
              Hb2 Hwf2 Hinv2 Hhor2) as [Hinv3 _].
  destruct (edf_get_next_effect current (Some p) st2 Hwf2)
    as (_ & _ & _ & _ & Htk).
  destruct (Htk p) as [Hun _]. destruct Hun as [Hsame3 _].
  { intros [_ Hm]. rewrite Hp2 in Hm.
    by apply (live_not_missed current (task_at st p)). }
  rewrite Hsame3, Hp2. split; [apply task_at_store_eq|].
  intros q Hq. destruct (decide (q = p)) as [->|Hqp].
  - rewrite task_at_store_eq. cbn [set_start start deadline].
    destruct Hhor as [_ Hhor]. destruct (Hhor p Hqueued) as [_ Hd].
    unfold effective_deadline, sub64 in Hlive.
    rewrite wrap64_small in Hlive; [lia|].
    unfold uint64, TICK_HORIZON, UINT64_MAX in *. lia.
  - rewrite task_at_store_ne in Hq |- * by done. by apply Hinv3.
Qed.

(** C5, as the code supports it: starting from a memory where every queued
    task has its deadline after its start, with the current time and all
    starts and deadlines within [TICK_HORIZON] ticks so that no sum wraps,
    the invariant holds again (1) after [schedule_task], when the deadline
    offset converts to a positive number of ticks and the new deadline fits
    in 64 bits; (2) after a selector pass, which applies [edf_reschedule] to
    missed tasks; (3) in the memory handed to the executor when a task whose
    [max_rtime] does not exceed its deadline is dispatched with
    [start = current]. *)
Theorem deadline_after_start_preserved (current : Z) (st : sched) :
  list_wf st →
  deadline_after_start st →
  within_horizon TICK_HORIZON current st →
  (∀ (p : nat) (start_us deadline_us : Z),
     0 < clock_us_to_ticks (sch_clock st) deadline_us →
     schedule_task_start p start_us current st
     + clock_us_to_ticks (sch_clock st) deadline_us <= UINT64_MAX →
     deadline_after_start (schedule_task p start_us deadline_us current st)) ∧
  (∀ ignore : option nat,
     deadline_after_start (edf_get_next current ignore st).2) ∧
  (∀ p : nat,
     (edf_get_next current None st).1 = Some p →
     start (task_at (edf_get_next current None st).2 p) <= current →
     0 <= max_rtime (task_at st p) <= deadline (task_at st p) →
     (schedule_edf current st).2
     = arch_run_task p (dispatch_state current p st) ∧
     start (task_at (dispatch_state current p st) p) = current ∧
     deadline_after_start (dispatch_state current p st)).
Proof.
  intros Hwf Hinv Hhor. split; [|split].
  - intros p start_us deadline_us Hpos Hfit.
    apply schedule_task_keeps_order; try done. by destruct Hhor as [[? _] _].
  - intros ignore.
    assert (Hb : 23 * TICK_HORIZON <= UINT64_MAX) by (by vm_compute).
    by destruct (edf_get_next_keeps_order TICK_HORIZON current ignore st
                   Hb Hwf Hinv Hhor).
  - intros p Hsel Hdue Hrt.
    destruct (schedule_edf_dispatch_keeps_order current st p) as [Htk Hinv'];
      try done.
    split; [by rewrite (schedule_edf_due current st p)|].
    split; [by rewrite Htk|done].
Qed.
End invariant.

Lemma deadline_after_start_preserved_witness :
  list_wf three_tasks ∧
  deadline_after_start three_tasks ∧
  within_horizon TICK_HORIZON 50 three_tasks ∧
  deadline_after_start
    (@schedule_task sample_platform 4%nat 0 1000 50 three_tasks) ∧
  deadline_after_start (edf_get_next 50 None three_tasks).2 ∧
  (@schedule_edf sample_platform 50 three_tasks).2
  = schedule_task_complete 3%nat (dispatch_state 50 3%nat three_tasks) ∧
  deadline_after_start (dispatch_state 50 3%nat three_tasks).
Proof.
  assert (Hwf : list_wf three_tasks) by (unfold list_wf; compute_done).
  assert (Hinv : deadline_after_start three_tasks)
    by (apply deadline_after_start_heap; compute_done).
  assert (Hhor : within_horizon TICK_HORIZON 50 three_tasks)
    by (apply within_horizon_heap; compute_done).
  destruct (@deadline_after_start_preserved sample_platform 50 three_tasks
              Hwf Hinv Hhor) as (Hins & Hpass & Hdisp).
  split; [exact Hwf|]. split; [exact Hinv|]. split; [exact Hhor|].
  split; [apply Hins; compute_done|]. split; [apply Hpass|].
  destruct (Hdisp 3%nat) as (Hrun & _ & Hinv');
    [reflexivity|compute_done|compute_done|].
  split; [exact Hrun|exact Hinv'].
Defined.

(** C5, as the specification words it, fails: inserting a task with a zero
    deadline offset queues it with [deadline = start]. *)
Lemma schedule_task_zero_deadline :
  deadline_after_start (one_task TASK_STATE_COMPLETED 0 0 0) ∧
  state (task_at (@schedule_task sample_platform 1%nat 0 0 42
                    (one_task TASK_STATE_COMPLETED 0 0 0)) 1%nat)
  = TASK_STATE_QUEUED ∧
  ¬ deadline_after_start
      (@schedule_task sample_platform 1%nat 0 0 42
         (one_task TASK_STATE_COMPLETED 0 0 0)).
Proof.
  split; [|split; [reflexivity|]].
  - apply deadline_after_start_heap. compute_done.
  - intros Hinv. specialize (Hinv 1%nat eq_refl). vm_compute in Hinv.
    discriminate Hinv.
Qed.

(** The ordering can also be lost where sums wrap or where [max_rtime]
    exceeds the deadline. *)
Example edf_reschedule_wrapped_window :
  edf_reschedule (Task TASK_STATE_QUEUED 0 (2 ^ 63) 0) 100
  = Task TASK_STATE_QUEUED 100 100 0.
Proof. reflexivity. Qed.

Example dispatch_past_deadline :
  (edf_get_next 7 None (one_queued TASK_STATE_QUEUED 0 5 10)).1 = Some 1%nat ∧
  task_at (dispatch_state 7 1%nat (one_queued TASK_STATE_QUEUED 0 5 10)) 1%nat
  = Task TASK_STATE_QUEUED 7 5 10.
Proof. split; reflexivity. Qed.

(** * Further properties of the scheduler *)

(** ** What the selector returns *)

Lemma slack_range current tk : 0 <= slack current tk <= UINT64_MAX.
Proof. unfold slack, sub64. apply wrap64_range. Qed.

Lemma effective_deadline_range tk : 0 <= effective_deadline tk <= UINT64_MAX.
Proof. unfold effective_deadline, sub64. apply wrap64_range. Qed.

(** For a live task and a current time that is not negative, the slack is
    the plain distance to the effective deadline. *)
Lemma slack_live current tk :
  0 <= current → live current tk →
  slack current tk = effective_deadline tk - current.
Proof.
  intros Hc [_ Hl]. unfold slack, sub64.
  pose proof (effective_deadline_range tk).
  apply wrap64_small. unfold uint64. lia.
Qed.

Lemma first_least_elem current st items q :
  first_least current st items q → q ∈ items ∧ live current (task_at st q).
Proof.
  intros (l1 & l2 & -> & Hq & _). split; [|done].
  apply elem_of_app. right. by left.
Qed.

(** X1: [edf_get_next] returns a task exactly when that task is the first
    live task of least slack in the list and its slack is below
    [UINT64_MAX]; it returns [NULL] exactly when every live task in the list
    has slack [UINT64_MAX]. *)
Theorem edf_get_next_returns_iff (current : Z) (ignore : option nat)
    (st : sched) (q : nat) :
  list_wf st →
  ((edf_get_next current ignore st).1 = Some q
   ↔ first_least current st (sch_list st) q
     ∧ slack current (task_at st q) < UINT64_MAX) ∧
  ((edf_get_next current ignore st).1 = None
   ↔ ∀ x, x ∈ sch_list st → live current (task_at st x) →
          slack current (task_at st x) = UINT64_MAX).
Proof.
  intros Hwf. split; split.
  - intros Hsel.
    by destruct (edf_get_next_selected current ignore st q Hwf Hsel) as (? & ? & _).
  - intros [Hfl Hlt].
    destruct (edf_get_next current ignore st).1 as [p|] eqn:Hr.
    + f_equal. apply (first_least_unique current st (sch_list st)); [done| |done].
      by destruct (edf_get_next_selected current ignore st p Hwf Hr).
    + exfalso. destruct (first_least_elem _ _ _ _ Hfl) as [Hin Hlive].
      pose proof (edf_get_next_none current ignore st Hwf Hr q Hin Hlive). lia.
  - intros Hnone x Hx Hlive.
    pose proof (edf_get_next_none current ignore st Hwf Hnone x Hx Hlive).
    pose proof (slack_range current (task_at st x)). lia.
  - intros Hall.
    destruct (edf_get_next current ignore st).1 as [p|] eqn:Hr; [exfalso|done].
    destruct (edf_get_next_selected current ignore st p Hwf Hr) as (Hfl & Hlt & _).
    destruct (first_least_elem _ _ _ _ Hfl) as [Hin Hlive].
    specialize (Hall p Hin Hlive). lia.
Qed.

Lemma edf_get_next_returns_iff_witness :
  list_wf three_tasks ∧
  first_least 50 three_tasks (sch_list three_tasks) 3%nat ∧
  slack 50 (task_at three_tasks 3%nat) < UINT64_MAX.
Proof.
  assert (Hwf : list_wf three_tasks) by (unfold list_wf; compute_done).
  split; [exact Hwf|].
  apply (proj1 (edf_get_next_returns_iff 50 None three_tasks 3%nat Hwf)).
  reflexivity.
Defined.

(** X2: earliest deadline first.  At a current time that is not negative,
    the task [edf_get_next] returns is linked, queued, has its effective
    deadline ahead of the current time, and no live task in the list has an
    earlier effective deadline. *)
Theorem edf_get_next_earliest_deadline (current : Z) (ignore : option nat)
    (st : sched) (p : nat) :
  list_wf st →
  0 <= current →
  (edf_get_next current ignore st).1 = Some p →
  p ∈ sch_list st ∧
  state (task_at st p) = TASK_STATE_QUEUED ∧
  current < effective_deadline (task_at st p) ∧
  ∀ x, x ∈ sch_list st → live current (task_at st x) →
       effective_deadline (task_at st p) <= effective_deadline (task_at st x).
Proof.
  intros Hwf Hc Hsel.
  destruct (edf_get_next_selected current ignore st p Hwf Hsel) as (Hfl & _).
  destruct (first_least_elem _ _ _ _ Hfl) as [Hin Hlive].
  split; [done|]. split; [by destruct Hlive|]. split; [by destruct Hlive|].
  intros x Hx Hlx.
  destruct Hfl as (l1 & l2 & Hl & _ & Hbefore & Hafter).
  pose proof (slack_live current _ Hc Hlive) as Hsp.
  pose proof (slack_live current _ Hc Hlx) as Hsx.
  rewrite Hl in Hx. apply elem_of_app in Hx as [Hx|Hx].
  - specialize (Hbefore x Hx Hlx). lia.
  - apply elem_of_cons in Hx as [->|Hx]; [lia|].
    specialize (Hafter x Hx Hlx). lia.
Qed.

Lemma edf_get_next_earliest_deadline_witness :
  list_wf three_tasks ∧
  (edf_get_next 50 None three_tasks).1 = Some 3%nat ∧
  50 < effective_deadline (task_at three_tasks 3%nat).
Proof.
  assert (Hwf : list_wf three_tasks) by (unfold list_wf; compute_done).
  split; [exact Hwf|]. split; [reflexivity|].
  apply (edf_get_next_earliest_deadline 50 None three_tasks 3%nat Hwf);
    [done|reflexivity].
Defined.

(** ** What a selector pass leaves alone *)

(** A task that is still linked after a traversal has the state it had
    before: the only state change, to [TASK_STATE_CANCEL], comes with the
    unlinking. *)
Lemma edf_scan_linked_state current items loc st :
  NoDup items →
  ∀ q, q ∈ sch_list (edf_scan current items (loc, st)).2 →
       state (task_at (edf_scan current items (loc, st)).2 q)
       = state (task_at st q).
Proof.
  revert loc st. induction items as [|p items IH]; intros loc st Hnd q Hq; [done|].
  apply NoDup_cons in Hnd as [Hp Hnd].
  rewrite edf_scan_cons in Hq |- *.
  destruct (task_cases current (task_at st p)) as [Hs|[Hl|Hm]].
  - rewrite edf_visit_skip in Hq |- * by done. by apply IH.
  - rewrite edf_visit_live in Hq |- * by done. by apply IH.
  - rewrite edf_visit_missed in Hq |- * by done.
    set (loc' := EdfLocals _ _ _) in *.
    destruct (decide (reschedule loc = 0)).
    + set (st1 := store_task p _ (list_item_del p st)) in *.
      rewrite (IH loc' st1 Hnd q Hq).
      destruct (edf_scan_effect current items loc' st1 Hnd)
        as (_ & _ & _ & Hsub & _).
      apply Hsub in Hq. subst st1.
      rewrite sch_list_store_task, elem_of_list_item_del in Hq.
      destruct Hq as [_ Hqp].
      rewrite task_at_store_ne by done. by rewrite task_at_list_item_del.
    + set (st1 := store_task p _ st) in *.
      rewrite (IH loc' st1 Hnd q Hq). subst st1.
      destruct (decide (p = q)) as [->|Hpq].
      * rewrite task_at_store_eq.
        by destruct (edf_reschedule_fields (task_at st q) current) as (_ & -> & _).
      * by rewrite task_at_store_ne.
Qed.

(** X3: what a pass of [edf_get_next] never does.  It changes neither the
    clock, nor the interrupt state, nor the arming of the work; it links no
    task and keeps every task linked at most once; it changes no task other
    than linked tasks that have missed, and never a task's [max_rtime]; a
    task still linked afterwards has the state it had before; and when no
    linked task has missed, memory is exactly as before. *)
Theorem edf_get_next_frame (current : Z) (ignore : option nat) (st : sched) :
  list_wf st →
  sch_clock (edf_get_next current ignore st).2 = sch_clock st ∧
  irq_pending (edf_get_next current ignore st).2 = irq_pending st ∧
  work_timeout (edf_get_next current ignore st).2 = work_timeout st ∧
  list_wf (edf_get_next current ignore st).2 ∧
  (∀ q, q ∈ sch_list (edf_get_next current ignore st).2 →
        q ∈ sch_list st ∧
        state (task_at (edf_get_next current ignore st).2 q)
        = state (task_at st q)) ∧
  (∀ q, ¬ (q ∈ sch_list st ∧ missed current (task_at st q)) →
        task_at (edf_get_next current ignore st).2 q = task_at st q ∧
        (q ∈ sch_list st → q ∈ sch_list (edf_get_next current ignore st).2)) ∧
  (∀ q, max_rtime (task_at (edf_get_next current ignore st).2 q)
        = max_rtime (task_at st q)) ∧
  ((∀ x, x ∈ sch_list st → ¬ missed current (task_at st x)) →
   (edf_get_next current ignore st).2 = st).
Proof.
  intros Hwf.
  destruct (edf_get_next_effect current ignore st Hwf)
    as (Hc & Hi & Hw & Hsub & Htk).
  split; [done|]. split; [done|]. split; [done|].
  split; [by apply edf_get_next_list_wf|].
  split.
  { intros q Hq. split; [by apply Hsub|].
    rewrite edf_get_next_scan in Hq |- *. cbn [snd] in *.
    by apply edf_scan_linked_state. }
  split; [intros q Hn; by apply Htk|].
  split.
  { intros q. destruct (Htk q) as [Hun Hmi].
    destruct (decide (q ∈ sch_list st ∧ missed current (task_at st q)))
      as [[Hin Hm]|Hn].
    - destruct (Hmi Hin Hm) as [-> | ->]; [done|].
      by destruct (edf_reschedule_fields (task_at st q) current) as (_ & _ & ->).
    - by destruct (Hun Hn) as [-> _]. }
  intros Hno. rewrite edf_get_next_scan. cbn [snd].
  by apply edf_scan_no_miss.
Qed.

Lemma edf_get_next_frame_witness :
  list_wf three_tasks ∧
  task_at (edf_get_next 50 None three_tasks).2 3%nat
  = Task TASK_STATE_QUEUED 40 200 5.
Proof.
  assert (Hwf : list_wf three_tasks) by (unfold list_wf; compute_done).
  split; [exact Hwf|].
  destruct (edf_get_next_frame 50 None three_tasks Hwf)
    as (_ & _ & _ & _ & _ & Hun & _).
  destruct (Hun 3%nat) as [H3 _]; [|exact H3].
  intros [_ Hm]. revert Hm. compute_done.
Defined.

(** ** A pass over tasks that are not queued *)

Lemma edf_scan_all_skipped current items loc st :
  (∀ x, x ∈ items → state (task_at st x) ≠ TASK_STATE_QUEUED) →
  edf_scan current items (loc, st) = (loc, st).
Proof.
  induction items as [|p items IH]; intros Hall; [done|].
  rewrite edf_scan_cons, edf_visit_skip by (apply Hall; by left).
  apply IH. intros x Hx. apply Hall. by right.
Qed.

Section idle.
Context `{pf : Platform}.

(** X4: when no linked task is queued (in particular when the list is
    empty), [schedule_edf] returns [NULL] and [scheduler_run] does nothing
    but clear the scheduling interrupt: no task is changed or run and the
    work is not armed. *)
Theorem scheduler_run_nothing_queued (current : Z) (st : sched) :
  (∀ x, x ∈ sch_list st → state (task_at st x) ≠ TASK_STATE_QUEUED) →
  edf_get_next current None st = (None, st) ∧
  schedule_edf current st = (None, interrupt_clear st) ∧
  scheduler_run current st = interrupt_clear st ∧
  work_timeout (scheduler_run current st) = work_timeout st.
Proof.
  intros Hall.
  assert (Hsel : edf_get_next current None st = (None, st)).
  { rewrite edf_get_next_scan. by rewrite edf_scan_all_skipped. }
  assert (Hrun : schedule_edf current st = (None, interrupt_clear st)).
  { rewrite schedule_edf_idle; by rewrite Hsel. }
  split; [exact Hsel|]. split; [exact Hrun|].
  unfold scheduler_run. by rewrite Hrun.
Qed.
End idle.

Lemma scheduler_run_nothing_queued_witness :
  state (task_at (one_queued TASK_STATE_RUNNING 0 100 10) 1%nat)
  ≠ TASK_STATE_QUEUED ∧
  @scheduler_run sample_platform 7 (one_queued TASK_STATE_RUNNING 0 100 10)
  = one_queued TASK_STATE_RUNNING 0 100 10.
Proof.
  split; [discriminate|].
  apply (@scheduler_run_nothing_queued sample_platform 7
           (one_queued TASK_STATE_RUNNING 0 100 10)).
  intros x ->%list_elem_of_singleton. discriminate.
Defined.

(** ** Where recovery puts a task *)

Lemma edf_reschedule_start_outcome tk current :
  (∃ k : nat,
     (1 ≤ k ≤ 10)%nat ∧ slot_accepted tk current k ∧
     (∀ j : nat, (1 ≤ j < k)%nat → ¬ slot_accepted tk current j) ∧
     start (edf_reschedule tk current) = advanced_start tk k)
  ∨ ((∀ j : nat, (1 ≤ j ≤ 10)%nat → ¬ slot_accepted tk current j) ∧
     start (edf_reschedule tk current) = add64 current (window tk)).
Proof.
  unfold edf_reschedule, edf_reschedule_run. fold (window tk).
  pose proof (slot_align_spec SLOT_ALIGN_TRIES (window tk) current tk 0) as H.
  unfold slot_accepted, advanced_start.
  destruct (slot_align SLOT_ALIGN_TRIES (window tk) current tk 0)
    as [[tk' n] [|]]; cbn [fst set_start set_deadline start].
  - destruct H as (_ & _ & k & Hk & _ & Hst & Hacc & _ & Hprev).
    left. exists k. unfold SLOT_ALIGN_TRIES in Hk.
    split; [lia|]. split; [by rewrite <- Hst|]. by split.
  - destruct H as (_ & _ & _ & Hprev). right. by split.
Qed.

(** X5: recovery without wrap-around.  For a task with [start < deadline]
    and all times within a bound that keeps the sums below [2^64], with
    [W = 2 * (deadline - start)]: the new deadline is the new start plus
    [W]; the new start is at least [current + W]; it is [current + W] when
    the task is nine windows or more behind, and otherwise it is the first
    slot [start + k * W], [k >= 1], that lies after [current + W], which is
    the slot [k = max 1 ((current - start) / W + 2)] and is [start + W] when
    the old start was still ahead of [current]; and if [max_rtime] is below
    [2 * W] the task's effective deadline is ahead of [current] again. *)
Theorem edf_reschedule_ahead (bound : Z) (tk : task) (current : Z) :
  23 * bound <= UINT64_MAX →
  0 <= current <= bound →
  0 <= start tk → start tk < deadline tk → deadline tk <= bound →
  deadline (edf_reschedule tk current)
  = start (edf_reschedule tk current) + 2 * (deadline tk - start tk) ∧
  current + 2 * (deadline tk - start tk) <= start (edf_reschedule tk current) ∧
  (current < start tk →
   start (edf_reschedule tk current)
   = start tk + 2 * (deadline tk - start tk)) ∧
  (start tk + 9 * (2 * (deadline tk - start tk)) <= current →
   start (edf_reschedule tk current)
   = current + 2 * (deadline tk - start tk)) ∧
  (start (edf_reschedule tk current) = current + 2 * (deadline tk - start tk)
   ∨ ∃ k : Z, 1 <= k <= 10 ∧
       start (edf_reschedule tk current)
       = start tk + k * (2 * (deadline tk - start tk))) ∧
  (∀ k : Z,
     1 <= k <= 10 →
     current + 2 * (deadline tk - start tk)
     < start tk + k * (2 * (deadline tk - start tk)) →
     (k = 1 ∨ start tk + (k - 1) * (2 * (deadline tk - start tk))
              <= current + 2 * (deadline tk - start tk)) →
     start (edf_reschedule tk current)
     = start tk + k * (2 * (deadline tk - start tk))) ∧
  start (edf_reschedule tk current)
  = (if start tk + 9 * (2 * (deadline tk - start tk)) <=? current
     then current + 2 * (deadline tk - start tk)
     else start tk
          + Z.max 1 ((current - start tk) / (2 * (deadline tk - start tk)) + 2)
            * (2 * (deadline tk - start tk))) ∧
  (0 <= max_rtime tk < 2 * (2 * (deadline tk - start tk)) →
   current < effective_deadline (edf_reschedule tk current)).
Proof.
  intros Hb Hc Hs Hsd Hd.
  assert (Hw : window tk = 2 * (deadline tk - start tk)).
  { rewrite window_eq. apply wrap64_small. unfold uint64. lia. }
  assert (Hadv : ∀ k : nat, (k ≤ 10)%nat →
            advanced_start tk k
            = start tk + Z.of_nat k * (2 * (deadline tk - start tk))).
  { intros k Hk. unfold advanced_start. rewrite Hw.
    apply wrap64_small. unfold uint64. nia. }
  assert (Hcw : add64 current (window tk)
                = current + 2 * (deadline tk - start tk)).
  { unfold add64. rewrite Hw. apply wrap64_small. unfold uint64. lia. }
  assert (Hacc : ∀ k : nat, (k ≤ 10)%nat →
            (slot_accepted tk current k
             ↔ current + 2 * (deadline tk - start tk)
               < start tk + Z.of_nat k * (2 * (deadline tk - start tk)))).
  { intros k Hk. unfold slot_accepted. by rewrite Hcw, Hadv. }
  destruct (edf_reschedule_fields tk current) as (Hdl & _ & Hrt).
  pose proof (edf_reschedule_keeps_order bound tk current Hb Hc Hs Hsd Hd)
    as (Hs0 & _ & Hd23).
  assert (Hdl' : deadline (edf_reschedule tk current)
                 = start (edf_reschedule tk current)
                   + 2 * (deadline tk - start tk)).
  { rewrite Hdl in Hd23 |- *. apply wrap64_small.
    pose proof (wrap64_range (start (edf_reschedule tk current)
                              + 2 * (deadline tk - start tk))).
    unfold uint64.
    destruct (edf_reschedule_start_cases tk current) as [Hst|(k & Hk & Hst)];
      rewrite Hst; [rewrite Hcw|rewrite Hadv by lia]; nia. }
  split; [exact Hdl'|].
  destruct (edf_reschedule_start_outcome tk current)
    as [(k & Hk & Hak & Hprev & Hst)|(Hnone & Hst)].
  - rewrite Hadv in Hst by lia. apply Hacc in Hak; [|lia].
    assert (Hrej : ∀ j : nat, (1 ≤ j < k)%nat →
              start tk + Z.of_nat j * (2 * (deadline tk - start tk))
              <= current + 2 * (deadline tk - start tk)).
    { intros j Hj.
      destruct (Z.le_gt_cases
                  (start tk + Z.of_nat j * (2 * (deadline tk - start tk)))
                  (current + 2 * (deadline tk - start tk))) as [|Hgt]; [done|].
      exfalso. apply (Hprev j Hj). apply Hacc; [lia|]. lia. }
    split; [lia|]. split; [|split; [|split; [|split; [|split]]]].
    + intros Hahead. destruct (decide (k = 1%nat)) as [->|Hk1]; [lia|].
      specialize (Hrej 1%nat ltac:(lia)). lia.
    + intros Hbehind. nia.
    + right. exists (Z.of_nat k). split; [lia|done].
    + (* the first slot after [current + W] is the one taken *)
      intros k' Hk' Hafter Hfirst. rewrite Hst. f_equal. f_equal.
      destruct (Z.lt_trichotomy (Z.of_nat k) k') as [Hlt|[Heq|Hgt]];
        [|done|].
      * destruct Hfirst as [->|Hfirst]; [lia|]. nia.
      * specialize (Hrej (Z.to_nat k') ltac:(lia)).
        rewrite Z2Nat.id in Hrej by lia. lia.
    + destruct (Z.leb_spec (start tk + 9 * (2 * (deadline tk - start tk)))
                  current) as [Hbehind|Hnear]; [nia|].
      rewrite Hst. f_equal. f_equal.
      set (W := 2 * (deadline tk - start tk)) in *.
      assert (HW : 0 < W) by (subst W; lia).
      pose proof (Z.div_mod (current - start tk) W ltac:(lia)) as Hdm.
      pose proof (Z.mod_pos_bound (current - start tk) W HW) as Hmod.
      set (q := (current - start tk) / W) in *.
      destruct (decide (k = 1%nat)) as [->|Hk1].
      * assert (q < 0) by nia. lia.
      * specialize (Hrej (k - 1)%nat ltac:(lia)).
        rewrite Nat2Z.inj_sub in Hrej by lia.
        assert (q = Z.of_nat k - 2) by nia. lia.
    + intros Hm. unfold effective_deadline, sub64.
      rewrite Hrt, wrap64_small; unfold uint64; lia.
  - rewrite Hcw in Hst.
    assert (Hrej : ∀ j : nat, (1 ≤ j ≤ 10)%nat →
              start tk + Z.of_nat j * (2 * (deadline tk - start tk))
              <= current + 2 * (deadline tk - start tk)).
    { intros j Hj.
      destruct (Z.le_gt_cases
                  (start tk + Z.of_nat j * (2 * (deadline tk - start tk)))
                  (current + 2 * (deadline tk - start tk))) as [|Hgt]; [done|].
      exfalso. apply (Hnone j Hj). apply Hacc; [lia|]. lia. }
    split; [lia|]. split; [|split; [|split; [|split; [|split]]]].
    + intros Hahead. specialize (Hrej 1%nat ltac:(lia)). lia.
    + done.
    + by left.
    + intros k' Hk' Hafter _. exfalso.
      specialize (Hrej (Z.to_nat k') ltac:(lia)).
      rewrite Z2Nat.id in Hrej by lia. lia.
    + specialize (Hrej 10%nat ltac:(lia)).
      destruct (Z.leb_spec (start tk + 9 * (2 * (deadline tk - start tk)))
                  current) as [_|Hnear]; [done|lia].
    + intros Hm. unfold effective_deadline, sub64.
      rewrite Hrt, wrap64_small; unfold uint64; lia.
Qed.

Lemma edf_reschedule_ahead_witness :
  0 <= 5 <= TICK_HORIZON ∧
  start (edf_reschedule (Task TASK_STATE_QUEUED 0 10 3) 5) = 0 + 2 * 20 ∧
  5 + 2 * (10 - 0) <= start (edf_reschedule (Task TASK_STATE_QUEUED 0 10 3) 5).
Proof.
  assert (Hb : 23 * TICK_HORIZON <= UINT64_MAX) by (by vm_compute).
  assert (Hc : 0 <= 5 <= TICK_HORIZON) by (by vm_compute).
  split; [exact Hc|].
  pose proof (edf_reschedule_ahead TICK_HORIZON (Task TASK_STATE_QUEUED 0 10 3) 5
                Hb Hc ltac:(done) ltac:(done) ltac:(by vm_compute))
    as (_ & Hge & _ & _ & _ & Hfirst & _).
  split; [|exact Hge].
  apply (Hfirst 2); [lia|done|right; by vm_compute].
Defined.

(** ** A pass leaves no missed task behind *)

Lemma edf_reschedule_effective_ahead bound tk current :
  23 * bound <= UINT64_MAX →
  0 <= current <= bound →
  0 <= start tk → start tk < deadline tk → deadline tk <= bound →
  0 <= max_rtime tk < 4 * (deadline tk - start tk) →
  current < effective_deadline (edf_reschedule tk current).
Proof.
  intros Hb Hc Hs Hsd Hd Hm.
  assert (Hw : window tk = 2 * (deadline tk - start tk)).
  { rewrite window_eq. apply wrap64_small. unfold uint64. lia. }
  destruct (edf_reschedule_fields tk current) as (Hdl & _ & Hrt).
  pose proof (edf_reschedule_keeps_order bound tk current Hb Hc Hs Hsd Hd)
    as (Hs0 & _ & Hd23).
  assert (Hcw : add64 current (window tk)
                = current + 2 * (deadline tk - start tk)).
  { unfold add64. rewrite Hw. apply wrap64_small. unfold uint64. lia. }
  assert (Hge : current + 2 * (deadline tk - start tk)
                <= start (edf_reschedule tk current)).
  { destruct (edf_reschedule_start_outcome tk current)
      as [(k & Hk & Hak & _ & Hst)|(_ & Hst)].
    - unfold slot_accepted in Hak. rewrite <- Hst, Hcw in Hak. lia.
    - rewrite Hst, Hcw. lia. }
  assert (Hdl' : deadline (edf_reschedule tk current)
                 = start (edf_reschedule tk current)
                   + 2 * (deadline tk - start tk)).
  { rewrite Hdl. apply wrap64_small. rewrite Hdl in Hd23.
    pose proof (wrap64_range (start (edf_reschedule tk current)
                              + 2 * (deadline tk - start tk))).
    unfold uint64.
    destruct (edf_reschedule_start_cases tk current) as [Hst|(k & Hk & Hst)];
      rewrite Hst.
    - rewrite Hcw. lia.
    - unfold advanced_start. rewrite Hw, wrap64_small; unfold uint64; nia. }
  unfold effective_deadline, sub64.
  rewrite Hrt, wrap64_small; unfold uint64; lia.
Qed.

(** X6: a pass leaves no missed task behind.  When every queued task has
    [start < deadline], all times are within a bound that keeps the sums
    below [2^64], and every linked task that has missed has [max_rtime]
    below four times its window [deadline - start], then after a pass of
    [edf_get_next] no linked task has missed at the same current time, and a
    further pass at that time changes nothing. *)
Theorem edf_get_next_clears_misses (bound current : Z) (ignore : option nat)
    (st : sched) :
  23 * bound <= UINT64_MAX →
  list_wf st →
  deadline_after_start st →
  within_horizon bound current st →
  (∀ p, p ∈ sch_list st → missed current (task_at st p) →
        0 <= max_rtime (task_at st p)
        < 4 * (deadline (task_at st p) - start (task_at st p))) →
  (∀ q, q ∈ sch_list (edf_get_next current ignore st).2 →
        ¬ missed current (task_at (edf_get_next current ignore st).2 q)) ∧
  (∀ ignore' : option nat,
     (edf_get_next current ignore' (edf_get_next current ignore st).2).2
     = (edf_get_next current ignore st).2).
Proof.
  intros Hb Hwf Hinv [Hc Hhor] Hrt.
  destruct (edf_get_next_effect current ignore st Hwf)
    as (_ & _ & _ & Hsub & Htk).
  assert (Hclean : ∀ q, q ∈ sch_list (edf_get_next current ignore st).2 →
             ¬ missed current (task_at (edf_get_next current ignore st).2 q)).
  { intros q Hq. pose proof (Hsub q Hq) as Hin.
    destruct (Htk q) as [Hun Hmi].
    destruct (decide (missed current (task_at st q))) as [Hm|Hn].
    - destruct (Hmi Hin Hm) as [Hcan|Hres].
      + rewrite Hcan. intros [Hstate _]. discriminate Hstate.
      + rewrite Hres. intros [_ Hle].
        destruct Hm as [Hsq Hmq]. destruct (Hhor q Hsq) as [Hs0 Hdb].
        pose proof (edf_reschedule_effective_ahead bound (task_at st q) current
                      Hb Hc Hs0 (Hinv q Hsq) Hdb
                      (Hrt q Hin (conj Hsq Hmq))). lia.
    - destruct Hun as [-> _]; tauto. }
  split; [exact Hclean|].
  intros ignore'. rewrite (edf_get_next_scan current ignore'). cbn [snd].
  by apply edf_scan_no_miss.
Qed.

Lemma edf_get_next_clears_misses_witness :
  list_wf three_tasks ∧
  deadline_after_start three_tasks ∧
  within_horizon TICK_HORIZON 50 three_tasks ∧
  (edf_get_next 50 None (edf_get_next 50 None three_tasks).2).2
  = (edf_get_next 50 None three_tasks).2.
Proof.
  assert (Hwf : list_wf three_tasks) by (unfold list_wf; compute_done).
  assert (Hinv : deadline_after_start three_tasks)
    by (apply deadline_after_start_heap; compute_done).
  assert (Hhor : within_horizon TICK_HORIZON 50 three_tasks)
    by (apply within_horizon_heap; compute_done).
  split; [exact Hwf|]. split; [exact Hinv|]. split; [exact Hhor|].
  apply (edf_get_next_clears_misses TICK_HORIZON 50 None three_tasks);
    [by vm_compute|exact Hwf|exact Hinv|exact Hhor|].
  intros p Hp _. revert p Hp. apply Forall_forall. compute_done.
Defined.

(** ** The return value of a dispatching pass *)

Section due_path.
Context `{pf : Platform}.

(** X7: when [schedule_edf] finds the selected task due, it calls the
    executor on that task, linked and with [start = current] and nothing
    else about it changed, and it never returns [NULL]: the second selection
    still sees the due task, so some linked task is returned (and
    [scheduler_run] will arm the work); when no linked task has missed, the
    task returned is the dispatched task itself. *)
Theorem schedule_edf_due_returns_task (current : Z) (st : sched) (p : nat) :
  list_wf st →
  (edf_get_next current None st).1 = Some p →
  start (task_at (edf_get_next current None st).2 p) <= current →
  (schedule_edf current st).2 = arch_run_task p (dispatch_state current p st) ∧
  task_at (dispatch_state current p st) p = set_start current (task_at st p) ∧
  p ∈ sch_list (dispatch_state current p st) ∧
  (∃ q, (schedule_edf current st).1 = Some q ∧
        q ∈ sch_list (dispatch_state current p st)) ∧
  ((∀ x, x ∈ sch_list st → ¬ missed current (task_at st x)) →
   (schedule_edf current st).1 = Some p).
Proof.
  intros Hwf Hsel Hdue.
  rewrite (schedule_edf_due current st p Hsel Hdue). cbn [fst snd].
  destruct (edf_get_next_selected current None st p Hwf Hsel)
    as (Hfl & Hlt & Hsame1 & Hin1).
  destruct (first_least_elem _ _ _ _ Hfl) as [_ Hlive].
  pose proof (edf_get_next_list_wf current None st Hwf) as Hwf1.
  unfold dispatch_state.
  set (st2 := interrupt_clear (edf_get_next current None st).2) in *.
  assert (Hwf2 : list_wf st2) by exact Hwf1.
  assert (Hp2 : task_at st2 p = task_at st p) by exact Hsame1.
  assert (Hin2 : p ∈ sch_list st2) by exact Hin1.
  assert (Hlive2 : live current (task_at st2 p)) by (by rewrite Hp2).
  destruct (edf_get_next_effect current (Some p) st2 Hwf2)
    as (_ & _ & _ & _ & Htk).
  destruct (Htk p) as [Hun _]. destruct Hun as [Hsame3 Hkeep3].
  { intros [_ Hm]. by apply (live_not_missed current (task_at st2 p)). }
  split; [done|].
  split; [by rewrite task_at_store_eq, Hsame3, Hp2|].
  split; [rewrite sch_list_store_task; by apply Hkeep3|].
  split.
  - destruct (edf_get_next current (Some p) st2).1 as [q|] eqn:Hr.
    + exists q. split; [done|]. rewrite sch_list_store_task.
      by destruct (edf_get_next_selected current (Some p) st2 q Hwf2 Hr)
        as (_ & _ & _ & ?).
    + exfalso.
      pose proof (edf_get_next_none current (Some p) st2 Hwf2 Hr p Hin2 Hlive2).
      rewrite Hp2 in H. lia.
  - intros Hno.
    assert (Hst1 : (edf_get_next current None st).2 = st).
    { rewrite edf_get_next_scan. cbn [snd]. by apply edf_scan_no_miss. }
    subst st2. rewrite Hst1 in *.
    destruct (edf_get_next current (Some p) (interrupt_clear st)).1
      as [q|] eqn:Hr.
    + f_equal.
      destruct (edf_get_next_selected current (Some p) (interrupt_clear st) q
                  Hwf2 Hr) as (Hfl2 & _).
      by apply (first_least_unique current st (sch_list st) q p Hwf).
    + exfalso.
      pose proof (edf_get_next_none current (Some p) (interrupt_clear st)
                    Hwf2 Hr p Hin2 Hlive2).
      rewrite Hp2 in H. lia.
Qed.
End due_path.

Lemma schedule_edf_due_returns_task_witness :
  list_wf three_tasks ∧
  (edf_get_next 50 None three_tasks).1 = Some 3%nat ∧
  (@schedule_edf sample_platform 50 three_tasks).1 = Some 2%nat ∧
  task_at (dispatch_state 50 3%nat three_tasks) 3%nat
  = Task TASK_STATE_QUEUED 50 200 5.
Proof.
  assert (Hwf : list_wf three_tasks) by (unfold list_wf; compute_done).
  split; [exact Hwf|]. split; [reflexivity|]. split; [reflexivity|].
  apply (@schedule_edf_due_returns_task sample_platform 50 three_tasks 3%nat);
    [exact Hwf|reflexivity|compute_done].
Defined.

(** ** Completing, cancelling and inserting together *)

Lemma store_task_twice p tk tk' st :
  store_task p tk (store_task p tk' st) = store_task p tk st.
Proof. unfold store_task; cbn. f_equal. apply insert_insert_eq. Qed.

Lemma list_item_del_twice p st :
  list_item_del p (list_item_del p st) = list_item_del p st.
Proof.
  unfold list_item_del, with_list; cbn. f_equal.
  apply filter_ne_absent. rewrite list_elem_of_filter. tauto.
Qed.

Lemma schedule_task_complete_twice p st :
  schedule_task_complete p (schedule_task_complete p st)
  = schedule_task_complete p st.
Proof.
  unfold schedule_task_complete.
  rewrite !task_at_list_item_del, task_at_store_eq.
  change (list_item_del p (store_task p ?tk ?s))
    with (store_task p tk (list_item_del p s)).
  by rewrite list_item_del_twice, store_task_twice.
Qed.

(** X8: [schedule_task_complete] has no guard.  Whatever the task's state,
    running included, it unlinks the task and sets its state to
    [TASK_STATE_COMPLETED], keeping the task's timing, every other task and
    the order of the list; the clock, the interrupt state and the arming of
    the work are not touched; and completing a task twice is the same as
    completing it once. *)
Theorem schedule_task_complete_effect (p : nat) (st : sched) :
  (p ∉ sch_list (schedule_task_complete p st)) ∧
  sch_list (schedule_task_complete p st) = filter (λ q, q ≠ p) (sch_list st) ∧
  task_at (schedule_task_complete p st) p
  = set_state TASK_STATE_COMPLETED (task_at st p) ∧
  (∀ q : nat, q ≠ p →
     task_at (schedule_task_complete p st) q = task_at st q ∧
     (q ∈ sch_list (schedule_task_complete p st) ↔ q ∈ sch_list st)) ∧
  sch_clock (schedule_task_complete p st) = sch_clock st ∧
  irq_pending (schedule_task_complete p st) = irq_pending st ∧
  work_timeout (schedule_task_complete p st) = work_timeout st ∧
  schedule_task_complete p (schedule_task_complete p st)
  = schedule_task_complete p st.
Proof.
  split.
  { change (p ∉ sch_list (list_item_del p st)).
    rewrite elem_of_list_item_del. tauto. }
  split; [reflexivity|].
  split; [unfold schedule_task_complete; apply task_at_store_eq|].
  split.
  { intros q Hq. split.
    - unfold schedule_task_complete. by rewrite task_at_store_ne.
    - change (q ∈ sch_list (list_item_del p st) ↔ q ∈ sch_list st).
      rewrite elem_of_list_item_del. tauto. }
  split; [reflexivity|]. split; [reflexivity|]. split; [reflexivity|].
  apply schedule_task_complete_twice.
Qed.

(** X9: cancelling is completing behind a guard.  On a task that is not
    running [schedule_task_del] returns [0] and leaves exactly the memory
    [schedule_task_complete] leaves; completing after such a cancel changes
    nothing further; and cancelling after a completion returns [0] and
    changes nothing further. *)
Theorem schedule_task_del_complete (p : nat) (st : sched) :
  (state (task_at st p) ≠ TASK_STATE_RUNNING →
   schedule_task_del p st = (0, schedule_task_complete p st) ∧
   schedule_task_complete p (schedule_task_del p st).2
   = (schedule_task_del p st).2) ∧
  schedule_task_del p (schedule_task_complete p st)
  = (0, schedule_task_complete p st).
Proof.
  assert (Hguard : ∀ s, state (task_at s p) ≠ TASK_STATE_RUNNING →
            schedule_task_del p s = (0, schedule_task_complete p s)).
  { intros s Hs. unfold schedule_task_del.
    by destruct (decide (state (task_at s p) = TASK_STATE_RUNNING)). }
  split.
  - intros Hn. rewrite (Hguard st Hn). cbn [snd].
    split; [done|apply schedule_task_complete_twice].
  - rewrite Hguard.
    + by rewrite schedule_task_complete_twice.
    + unfold schedule_task_complete. by rewrite task_at_store_eq.
Qed.

Lemma schedule_task_del_complete_witness :
  state (task_at (one_queued TASK_STATE_QUEUED 0 100 10) 1%nat)
  ≠ TASK_STATE_RUNNING ∧
  schedule_task_del 1%nat (one_queued TASK_STATE_QUEUED 0 100 10)
  = (0, schedule_task_complete 1%nat (one_queued TASK_STATE_QUEUED 0 100 10)).
Proof.
  split; [discriminate|].
  apply (proj1 (schedule_task_del_complete 1%nat
                  (one_queued TASK_STATE_QUEUED 0 100 10))).
  discriminate.
Defined.

Section round_trip.
Context `{pf : Platform}.

(** X10: insert, then cancel.  Inserting a task that is neither running nor
    linked and cancelling it straight away succeeds and gives the list back
    as it was; the task is left [TASK_STATE_COMPLETED] with the start and
    deadline the insertion computed, the scheduling interrupt stays raised,
    and no other task is changed. *)
Theorem schedule_task_then_del (p : nat) (start_us deadline_us current : Z)
    (st : sched) :
  state (task_at st p) ≠ TASK_STATE_RUNNING →
  p ∉ sch_list st →
  (schedule_task_del p (schedule_task p start_us deadline_us current st)).1 = 0 ∧
  sch_list (schedule_task_del p
              (schedule_task p start_us deadline_us current st)).2
  = sch_list st ∧
  task_at (schedule_task_del p
             (schedule_task p start_us deadline_us current st)).2 p
  = set_state TASK_STATE_COMPLETED
      (task_at (schedule_task p start_us deadline_us current st) p) ∧
  irq_pending (schedule_task_del p
                 (schedule_task p start_us deadline_us current st)).2 = true ∧
  ∀ q : nat, q ≠ p →
    task_at (schedule_task_del p
               (schedule_task p start_us deadline_us current st)).2 q
    = task_at st q.
Proof.
  intros Hrun Hp.
  destruct (schedule_task_accepted p start_us deadline_us current st Hrun)
    as (Htk & Hl & Hirq & _ & _ & Hoth).
  specialize (Hl Hp).
  set (st1 := schedule_task p start_us deadline_us current st) in *.
  assert (Hn1 : state (task_at st1 p) ≠ TASK_STATE_RUNNING)
    by (by rewrite Htk).
  unfold schedule_task_del.
  destruct (decide (state (task_at st1 p) = TASK_STATE_RUNNING)); [done|].
  cbn [fst snd]. split; [done|]. split.
  { rewrite sch_list_store_task. unfold list_item_del; cbn. rewrite Hl.
    rewrite filter_app, filter_ne_absent by done.
    rewrite filter_cons_False by tauto. by rewrite filter_nil, app_nil_r. }
  split; [by rewrite task_at_store_eq, task_at_list_item_del|].
  split; [exact Hirq|].
  intros q Hq. rewrite task_at_store_ne, task_at_list_item_del by done.
  by apply Hoth.
Qed.
End round_trip.

Lemma schedule_task_then_del_witness :
  state (task_at three_tasks 4%nat) ≠ TASK_STATE_RUNNING ∧
  (4%nat ∉ sch_list three_tasks) ∧
  sch_list (schedule_task_del 4%nat
              (@schedule_task sample_platform 4%nat 0 1000 50 three_tasks)).2
  = [1%nat; 2%nat; 3%nat].
Proof.
  split; [discriminate|]. split; [compute_done|].
  apply (@schedule_task_then_del sample_platform 4%nat 0 1000 50 three_tasks);
    [discriminate|compute_done].
Defined.

(** ** Membership and state stay in step *)

(** A task that a traversal unlinks ends in [TASK_STATE_CANCEL]. *)
Lemma edf_scan_unlinked_cancel current items loc st :
  NoDup items →
  ∀ q, q ∈ sch_list st →
       q ∈ sch_list (edf_scan current items (loc, st)).2
       ∨ state (task_at (edf_scan current items (loc, st)).2 q)
         = TASK_STATE_CANCEL.
Proof.
  revert loc st. induction items as [|p items IH]; intros loc st Hnd q Hq;
    [by left|].
  apply NoDup_cons in Hnd as [Hp Hnd].
  rewrite edf_scan_cons.
  destruct (task_cases current (task_at st p)) as [Hs|[Hl|Hm]].
  - rewrite edf_visit_skip by done. by apply IH.
  - rewrite edf_visit_live by done. by apply IH.
  - rewrite edf_visit_missed by done.
    set (loc' := EdfLocals _ _ _).
    destruct (decide (reschedule loc = 0)); [|by apply IH].
    set (st1 := store_task p _ (list_item_del p st)).
    destruct (decide (q = p)) as [->|Hqp].
    + right.
      destruct (edf_scan_effect current items loc' st1 Hnd)
        as (_ & _ & _ & _ & Htk).
      destruct (Htk p) as [Hun _]. destruct Hun as [-> _]; [tauto|].
      subst st1. by rewrite task_at_store_eq.
    + apply IH; [done|]. subst st1.
      rewrite sch_list_store_task, elem_of_list_item_del. tauto.
Qed.

Lemma edf_get_next_consistent current ignore st :
  queue_consistent st → queue_consistent (edf_get_next current ignore st).2.
Proof.
  intros [Hwf Hcons]. split; [by apply edf_get_next_list_wf|].
  destruct (edf_get_next_effect current ignore st Hwf)
    as (_ & _ & _ & Hsub & _).
  intros q. split.
  - intros Hq.
    assert (Hbefore : q ∈ sch_list st).
    { apply Hcons.
      destruct (edf_get_next_effect current ignore st Hwf)
        as (_ & _ & _ & _ & Htk).
      destruct (Htk q) as [Hun Hmi].
      destruct (decide (q ∈ sch_list st ∧ missed current (task_at st q)))
        as [[_ [Hs _]]|Hn]; [done|].
      destruct (Hun Hn) as [Heq _]. by rewrite <- Heq. }
    rewrite edf_get_next_scan in Hq |- *. cbn [snd] in *.
    destruct (edf_scan_unlinked_cancel current (sch_list st)
                (EdfLocals None UINT64_MAX 0) st Hwf q Hbefore) as [?|Hc];
      [done|].
    rewrite Hc in Hq. discriminate Hq.
  - intros Hq.
    assert (Hst : state (task_at (edf_get_next current ignore st).2 q)
                  = state (task_at st q)).
    { rewrite edf_get_next_scan in Hq |- *. cbn [snd] in *.
      by apply edf_scan_linked_state. }
    rewrite Hst. apply Hcons. by apply Hsub.
Qed.

Section consistency.
Context `{pf : Platform}.

(** X11: membership and state stay in step.  From a memory in which every
    task is linked at most once and is linked exactly when it is queued,
    each operation of the scheduler leads to such a memory again:
    [schedule_task] on a task that is not queued, [schedule_task_del],
    [schedule_task_complete], a pass of [edf_get_next], and [schedule_edf]
    up to the point where it calls the executor. *)
Theorem queue_consistent_preserved (st : sched) :
  queue_consistent st →
  (∀ (p : nat) (start_us deadline_us current : Z),
     state (task_at st p) ≠ TASK_STATE_QUEUED →
     queue_consistent (schedule_task p start_us deadline_us current st)) ∧
  (∀ p : nat, queue_consistent (schedule_task_del p st).2) ∧
  (∀ p : nat, queue_consistent (schedule_task_complete p st)) ∧
  (∀ (current : Z) (ignore : option nat),
     queue_consistent (edf_get_next current ignore st).2) ∧
  (∀ (current : Z) (p : nat),
     queue_consistent (dispatch_state current p st)).
Proof.
  intros Hqc. pose proof Hqc as [Hwf Hcons].
  assert (Hcomplete : ∀ p, queue_consistent (schedule_task_complete p st)).
  { intros p. split; [by apply schedule_task_complete_wf|].
    intros q. unfold schedule_task_complete.
    rewrite sch_list_store_task, elem_of_list_item_del.
    destruct (decide (q = p)) as [->|Hqp].
    - rewrite task_at_store_eq. cbn. split; [discriminate|tauto].
    - rewrite task_at_store_ne, task_at_list_item_del by done.
      rewrite Hcons. tauto. }
  split; [|split; [|split; [|split]]].
  - intros p start_us deadline_us current Hnq.
    destruct (decide (state (task_at st p) = TASK_STATE_RUNNING)) as [Hr|Hn].
    { by rewrite schedule_task_running. }
    assert (Hp : p ∉ sch_list st) by (by rewrite <- Hcons).
    split; [by apply schedule_task_wf|].
    destruct (schedule_task_accepted p start_us deadline_us current st Hn)
      as (Htk & Hl & _ & _ & _ & Hoth).
    specialize (Hl Hp).
    intros q. rewrite Hl, elem_of_app, list_elem_of_singleton.
    destruct (decide (q = p)) as [->|Hqp].
    + rewrite Htk. cbn. tauto.
    + rewrite (Hoth q Hqp), Hcons. tauto.
  - intros p. unfold schedule_task_del.
    destruct (decide (state (task_at st p) = TASK_STATE_RUNNING)); [done|].
    apply Hcomplete.
  - exact Hcomplete.
  - intros current ignore. by apply edf_get_next_consistent.
  - intros current p. unfold dispatch_state.
    set (st2 := interrupt_clear (edf_get_next current None st).2).
    assert (Hqc2 : queue_consistent st2)
      by exact (edf_get_next_consistent current None st Hqc).
    destruct (edf_get_next_consistent current (Some p) st2 Hqc2)
      as [Hwf3 Hcons3].
    split; [exact Hwf3|].
    intros q. rewrite sch_list_store_task.
    destruct (decide (q = p)) as [->|Hqp].
    + rewrite task_at_store_eq. cbn [set_start state]. apply Hcons3.
    + rewrite task_at_store_ne by done. apply Hcons3.
Qed.
End consistency.

Lemma queue_consistent_preserved_witness :
  queue_consistent (one_queued TASK_STATE_QUEUED 0 100 10) ∧
  queue_consistent
    (edf_get_next 200 None (one_queued TASK_STATE_QUEUED 0 100 10)).2 ∧
  sch_list (edf_get_next 200 None (one_queued TASK_STATE_QUEUED 0 100 10)).2
  = [].
Proof.
  assert (Hqc : queue_consistent (one_queued TASK_STATE_QUEUED 0 100 10)).
  { split; [unfold list_wf; compute_done|].
    intros p. unfold task_at, one_queued; cbn.
    rewrite list_elem_of_singleton.
    destruct (decide (p = 1%nat)) as [->|Hp].
    - by rewrite lookup_total_singleton_eq.
    - rewrite lookup_total_singleton_ne by done. cbn. split; [discriminate|done]. }
  split; [exact Hqc|]. split; [|reflexivity].
  apply (@queue_consistent_preserved sample_platform
           (one_queued TASK_STATE_QUEUED 0 100 10) Hqc).
Defined.

(** ** The choice over time *)

Lemma edf_get_next_of_first_least current ignore st q :
  list_wf st →
  first_least current st (sch_list st) q →
  slack current (task_at st q) < UINT64_MAX →
  (edf_get_next current ignore st).1 = Some q.
Proof.
  intros Hwf Hfl Hlt.
  destruct (edf_get_next current ignore st).1 as [p|] eqn:Hr.
  - f_equal. apply (first_least_unique current st (sch_list st)); [done| |done].
    by destruct (edf_get_next_selected current ignore st p Hwf Hr).
  - exfalso. destruct (first_least_elem _ _ _ _ Hfl) as [Hin Hlive].
    pose proof (edf_get_next_none current ignore st Hwf Hr q Hin Hlive). lia.
Qed.

(** While no linked task misses, the order of the live tasks by slack does
    not depend on the current time. *)
Lemma first_least_later current current' st items q :
  0 <= current <= current' →
  (∀ x, x ∈ items → ¬ missed current' (task_at st x)) →
  first_least current st items q →
  first_least current' st items q ∧
  slack current' (task_at st q) <= slack current (task_at st q).
Proof.
  intros Hc Hno (l1 & l2 & Hl & Hq & Hbefore & Hafter).
  assert (Hlive : ∀ x, x ∈ items → live current (task_at st x) →
            live current' (task_at st x)).
  { intros x Hx [Hs Hlt]. split; [done|].
    destruct (Z.lt_ge_cases current' (effective_deadline (task_at st x)));
      [done|]. exfalso. apply (Hno x Hx). split; [done|lia]. }
  assert (Hback : ∀ x, live current' (task_at st x) →
            live current (task_at st x)).
  { intros x [Hs Hlt]. split; [done|lia]. }
  assert (Hq' : live current' (task_at st q)).
  { apply Hlive; [|done]. rewrite Hl. apply elem_of_app. right. by left. }
  assert (Heq : ∀ x, live current' (task_at st x) →
            slack current' (task_at st x)
            = slack current (task_at st x) - (current' - current)).
  { intros x Hx. rewrite (slack_live current') by (done || lia).
    rewrite (slack_live current) by (lia || by apply Hback). lia. }
  split; [|rewrite (Heq q Hq'); lia].
  exists l1, l2. split; [done|]. split; [done|]. split.
  - intros x Hx Hlx. rewrite (Heq q Hq'), (Heq x Hlx).
    specialize (Hbefore x Hx (Hback x Hlx)). lia.
  - intros x Hx Hlx. rewrite (Heq q Hq'), (Heq x Hlx).
    specialize (Hafter x Hx (Hback x Hlx)). lia.
Qed.

(** X12: the choice is stable over time.  If a pass at time [current]
    returns a task and, at a later time [current'], no linked task has
    missed, then a pass at [current'] returns the same task and changes
    nothing. *)
Theorem edf_get_next_stable (current current' : Z) (ignore ignore' : option nat)
    (st : sched) (p : nat) :
  list_wf st →
  0 <= current <= current' →
  (∀ x, x ∈ sch_list st → ¬ missed current' (task_at st x)) →
  (edf_get_next current ignore st).1 = Some p →
  edf_get_next current' ignore' st = (Some p, st).
Proof.
  intros Hwf Hc Hno Hsel.
  destruct (edf_get_next_selected current ignore st p Hwf Hsel)
    as (Hfl & Hlt & _).
  destruct (first_least_later current current' st (sch_list st) p Hc Hno Hfl)
    as [Hfl' Hle].
  assert (Hst : (edf_get_next current' ignore' st).2 = st).
  { rewrite edf_get_next_scan. cbn [snd]. by apply edf_scan_no_miss. }
  assert (Hret : (edf_get_next current' ignore' st).1 = Some p)
    by (apply edf_get_next_of_first_least; [done|done|lia]).
  destruct (edf_get_next current' ignore' st) as [r st'].
  cbn [fst snd] in *. by subst.
Qed.

Lemma edf_get_next_stable_witness :
  list_wf (one_queued TASK_STATE_QUEUED 90 200 5) ∧
  (edf_get_next 10 None (one_queued TASK_STATE_QUEUED 90 200 5)).1
  = Some 1%nat ∧
  edf_get_next 90 None (one_queued TASK_STATE_QUEUED 90 200 5)
  = (Some 1%nat, one_queued TASK_STATE_QUEUED 90 200 5).
Proof.
  assert (Hwf : list_wf (one_queued TASK_STATE_QUEUED 90 200 5))
    by (unfold list_wf; compute_done).
  split; [exact Hwf|]. split; [reflexivity|].
  apply (edf_get_next_stable 10 90 None None
           (one_queued TASK_STATE_QUEUED 90 200 5) 1%nat);
    [exact Hwf|by vm_compute| |reflexivity].
  apply Forall_forall. compute_done.
Defined.

Section timer.
Context `{pf : Platform}.

(** X13: the wake-up round trip.  Let a pass at time [current] select a
    task whose start lies ahead, and let no linked task have missed by that
    start time.  Then [scheduler_run] arms the work at the task's start
    and changes no task; when the work fires, [sch_work] returns [0] and
    raises the scheduling interrupt; and the pass that follows at the
    task's start time selects the same task, finds it due and hands it,
    unchanged, to the executor. *)
Theorem scheduler_run_wakeup (current : Z) (st : sched) (p : nat) :
  list_wf st →
  0 <= current →
  (edf_get_next current None st).1 = Some p →
  current < start (task_at st p) →
  (∀ x, x ∈ sch_list st → ¬ missed (start (task_at st p)) (task_at st x)) →
  scheduler_run current st
  = work_reschedule_default_at (start (task_at st p)) (interrupt_clear st) ∧
  (sch_work (scheduler_run current st)).1 = 0 ∧
  irq_pending (sch_work (scheduler_run current st)).2 = true ∧
  (schedule_edf (start (task_at st p))
     (sch_work (scheduler_run current st)).2).1 = Some p ∧
  (schedule_edf (start (task_at st p))
     (sch_work (scheduler_run current st)).2).2
  = arch_run_task p
      (dispatch_state (start (task_at st p)) p
         (sch_work (scheduler_run current st)).2) ∧
  task_at (dispatch_state (start (task_at st p)) p
             (sch_work (scheduler_run current st)).2) p
  = task_at st p.
Proof.
  intros Hwf Hc Hsel Hfut Hno.
  set (t := start (task_at st p)) in *.
  assert (Hno0 : ∀ x, x ∈ sch_list st → ¬ missed current (task_at st x)).
  { intros x Hx [Hs Hm]. apply (Hno x Hx). split; [done|lia]. }
  assert (Hst1 : (edf_get_next current None st).2 = st).
  { rewrite edf_get_next_scan. cbn [snd]. by apply edf_scan_no_miss. }
  assert (Harm : scheduler_run current st
                 = work_reschedule_default_at t (interrupt_clear st)).
  { unfold scheduler_run.
    rewrite (schedule_edf_future current st p Hsel) by (by rewrite Hst1).
    by rewrite Hst1, task_at_interrupt_clear. }
  rewrite Harm. unfold sch_work. cbn [fst snd].
  set (stw := schedule (work_reschedule_default_at t (interrupt_clear st))).
  assert (Hc' : 0 <= current <= t) by lia.
  (* the later pass, on any memory with the same tasks and list *)
  assert (Hselw : ∀ ignore irq work,
            edf_get_next t ignore
              (Sched (heap st) (sch_list st) (sch_clock st) irq work)
            = (Some p, Sched (heap st) (sch_list st) (sch_clock st) irq work)).
  { intros ignore irq work.
    set (s := Sched (heap st) (sch_list st) (sch_clock st) irq work).
    destruct (edf_get_next_selected current None st p Hwf Hsel)
      as (Hfl & Hlt & _).
    destruct (first_least_later current t st (sch_list st) p Hc' Hno Hfl)
      as [Hfl' Hle].
    assert (Hwfs : list_wf s) by exact Hwf.
    assert (Hfls : first_least t s (sch_list s) p) by exact Hfl'.
    assert (Hlts : slack t (task_at s p) < UINT64_MAX)
      by (change (slack t (task_at st p) < UINT64_MAX); lia).
    pose proof (edf_get_next_of_first_least t ignore s p Hwfs Hfls Hlts)
      as Hret.
    assert (Hmem : (edf_get_next t ignore s).2 = s).
    { rewrite edf_get_next_scan. cbn [snd]. apply edf_scan_no_miss. exact Hno. }
    destruct (edf_get_next t ignore s) as [r st'].
    cbn [fst snd] in *. by subst. }
  pose proof (Hselw None true (Some t)) as Hsel1.
  pose proof (Hselw (Some p) false (Some t)) as Hsel2.
  change (Sched (heap st) (sch_list st) (sch_clock st) true (Some t))
    with stw in Hsel1.
  change (Sched (heap st) (sch_list st) (sch_clock st) false (Some t))
    with (interrupt_clear stw) in Hsel2.
  split; [done|]. split; [done|]. split; [done|].
  assert (Hdisp : dispatch_state t p stw
                  = store_task p (set_start t (task_at st p))
                      (interrupt_clear stw)).
  { unfold dispatch_state. rewrite Hsel1. cbn [snd]. rewrite Hsel2. cbn [snd].
    by rewrite task_at_interrupt_clear. }
  assert (Hdue : schedule_edf t stw
                 = (Some p, arch_run_task p (dispatch_state t p stw))).
  { rewrite (schedule_edf_due t stw p); rewrite ?Hsel1; cbn [fst snd].
    - by rewrite Hsel2.
    - done.
    - change (start (task_at st p) <= t). lia. }
  rewrite Hdue. cbn [fst snd]. split; [done|]. split; [done|].
  rewrite Hdisp, task_at_store_eq. subst t. by destruct (task_at st p).
Qed.
End timer.

Lemma scheduler_run_wakeup_witness :
  list_wf (one_queued TASK_STATE_QUEUED 90 200 5) ∧
  (edf_get_next 10 None (one_queued TASK_STATE_QUEUED 90 200 5)).1
  = Some 1%nat ∧
  work_timeout
    (@scheduler_run sample_platform 10 (one_queued TASK_STATE_QUEUED 90 200 5))
  = Some 90 ∧
  (@schedule_edf sample_platform 90
     (sch_work (@scheduler_run sample_platform 10
                  (one_queued TASK_STATE_QUEUED 90 200 5))).2).1
  = Some 1%nat.
Proof.
  assert (Hwf : list_wf (one_queued TASK_STATE_QUEUED 90 200 5))
    by (unfold list_wf; compute_done).
  split; [exact Hwf|]. split; [reflexivity|]. split; [reflexivity|].
  apply (@scheduler_run_wakeup sample_platform 10
           (one_queued TASK_STATE_QUEUED 90 200 5) 1%nat);
    [exact Hwf|done|reflexivity|by vm_compute|].
  apply Forall_forall. compute_done.
Defined.

(** ** One cancellation per pass *)

Lemma first_missed_split current st (l : list nat) :
  (∃ x, x ∈ l ∧ missed current (task_at st x)) →
  ∃ l1 m l2,
    l = l1 ++ m :: l2 ∧ missed current (task_at st m) ∧
    ∀ x, x ∈ l1 → ¬ missed current (task_at st x).
Proof.
  induction l as [|p l IH]; intros (x & Hx & Hm).
  { by apply elem_of_nil in Hx. }
  destruct (decide (missed current (task_at st p))) as [Hp|Hp].
  - exists [], p, l. split; [done|]. split; [done|].
    intros y Hy. by apply elem_of_nil in Hy.
  - apply elem_of_cons in Hx as [->|Hx]; [done|].
    destruct IH as (l1 & m & l2 & -> & Hmm & Hl1); [by exists x|].
    exists (p :: l1), m, l2. split; [done|]. split; [done|].
    intros y [->|Hy]%elem_of_cons; [done|by apply Hl1].
Qed.

(** X14: one cancellation per pass.  On a list that links each task once
    and is short enough for the miss counter not to overflow, a pass in
    which some linked task has missed unlinks exactly one task: the list is
    [l1 ++ m :: l2] with [m] missed and no missed task in [l1], and the pass
    leaves [l1 ++ l2] and sets [m] to [TASK_STATE_CANCEL]; every other task
    keeps its state and its place in the list. *)
Theorem edf_get_next_one_cancel (current : Z) (ignore : option nat)
    (st : sched) :
  list_wf st →
  Z.of_nat (length (sch_list st)) <= INT_MAX →
  (∃ x, x ∈ sch_list st ∧ missed current (task_at st x)) →
  ∃ (l1 : list nat) (m : nat) (l2 : list nat),
    sch_list st = l1 ++ m :: l2 ∧
    (∀ x, x ∈ l1 → ¬ missed current (task_at st x)) ∧
    m ∈ sch_list st ∧ missed current (task_at st m) ∧
    sch_list (edf_get_next current ignore st).2 = l1 ++ l2 ∧
    sch_list (edf_get_next current ignore st).2
    = filter (λ q, q ≠ m) (sch_list st) ∧
    length (sch_list (edf_get_next current ignore st).2)
    = (length (sch_list st) - 1)%nat ∧
    state (task_at (edf_get_next current ignore st).2 m) = TASK_STATE_CANCEL ∧
    ∀ q, q ≠ m →
         state (task_at (edf_get_next current ignore st).2 q)
         = state (task_at st q).
Proof.
  unfold list_wf. intros Hnd Hlen Hex.
  destruct (first_missed_split current st (sch_list st) Hex)
    as (l1 & m & l2 & Hsplit & Hm & Hfirst).
  exists l1, m, l2.
  assert (Hin : m ∈ sch_list st)
    by (rewrite Hsplit; apply elem_of_app; right; by left).
  split; [done|]. split; [done|]. split; [done|]. split; [done|].
  rewrite edf_get_next_scan. cbn [snd].
  rewrite Hsplit in Hnd, Hlen |- *.
  pose proof (filter_ne_middle m l1 l2 Hnd) as Hfilter.
  apply NoDup_app in Hnd as (Hnd1 & Hdis & Hnd2).
  apply NoDup_cons in Hnd2 as [Hm2 Hnd2].
  rewrite length_app in Hlen. cbn [length] in Hlen.
  rewrite edf_scan_app, edf_scan_cons.
  destruct (edf_scan_no_miss current l1 (EdfLocals None UINT64_MAX 0) st Hfirst)
    as [Hst1 Hrs1].
  destruct (edf_scan current l1 (EdfLocals None UINT64_MAX 0, st))
    as [loc1 st1]. cbn [fst snd reschedule] in Hst1, Hrs1. subst st1.
  rewrite edf_visit_missed by done.
  rewrite decide_True by done. rewrite Hrs1.
  set (loc2 := EdfLocals _ _ _).
  set (st2 := store_task m _ _).
  assert (Hrs2 : reschedule loc2 = 1) by reflexivity.
  destruct (edf_scan_later current l2 loc2 st2 Hnd2) as [Hl Htk];
    [lia|rewrite Hrs2; lia|].
  assert (Hl2 : sch_list st2 = l1 ++ l2).
  { subst st2. rewrite sch_list_store_task. unfold list_item_del; cbn.
    by rewrite Hsplit. }
  rewrite Hl, Hl2, Hfilter.
  split; [done|]. split; [done|]. split.
  { rewrite !length_app. cbn [length]. lia. }
  split.
  { rewrite Htk, decide_False by tauto. subst st2.
    by rewrite task_at_store_eq. }
  intros q Hq. rewrite Htk.
  assert (Hsame : task_at st2 q = task_at st q).
  { subst st2. rewrite task_at_store_ne by done. apply task_at_list_item_del. }
  rewrite Hsame. case_decide; [|done].
  by destruct (edf_reschedule_fields (task_at st q) current) as (_ & -> & _).
Qed.

Lemma edf_get_next_one_cancel_witness :
  list_wf three_tasks ∧
  missed 50 (task_at three_tasks 2%nat) ∧
  length (sch_list (edf_get_next 50 None three_tasks).2) = 2%nat.
Proof.
  assert (Hwf : list_wf three_tasks) by (unfold list_wf; compute_done).
  assert (Hm2 : missed 50 (task_at three_tasks 2%nat)) by compute_done.
  split; [exact Hwf|]. split; [exact Hm2|].
  destruct (edf_get_next_one_cancel 50 None three_tasks Hwf)
    as (l1 & m & l2 & _ & _ & _ & _ & _ & _ & Hlen & _);
    [compute_done| |exact Hlen].
  exists 2%nat. split; [compute_done|exact Hm2].
Defined.

(** ** Inserting a task again *)

Section periodic.
Context `{pf : Platform}.

(** X15: a non-zero [start_us] is relative to the task's previous start.
    Inserting a task that is not running with [start_us <> 0], completing
    it, and inserting it again with the same offsets leaves its start two
    steps of [clock_us_to_ticks start_us - PLATFORM_SCHEDULE_COST] after the
    original start and its deadline [clock_us_to_ticks deadline_us] after
    that ([uint64_t] sums), whatever the two current times are; the task,
    not linked at the outset, ends queued and linked once at the tail. *)
Theorem schedule_task_again (p : nat) (start_us deadline_us : Z)
    (current1 current2 : Z) (st : sched) :
  state (task_at st p) ≠ TASK_STATE_RUNNING →
  p ∉ sch_list st →
  start_us ≠ 0 →
  start (task_at
           (schedule_task p start_us deadline_us current2
              (schedule_task_complete p
                 (schedule_task p start_us deadline_us current1 st))) p)
  = wrap64 (start (task_at st p)
            + 2 * (clock_us_to_ticks (sch_clock st) start_us
                   - PLATFORM_SCHEDULE_COST)) ∧
  deadline (task_at
              (schedule_task p start_us deadline_us current2
                 (schedule_task_complete p
                    (schedule_task p start_us deadline_us current1 st))) p)
  = wrap64 (start (task_at st p)
            + 2 * (clock_us_to_ticks (sch_clock st) start_us
                   - PLATFORM_SCHEDULE_COST)
            + clock_us_to_ticks (sch_clock st) deadline_us) ∧
  state (task_at
           (schedule_task p start_us deadline_us current2
              (schedule_task_complete p
                 (schedule_task p start_us deadline_us current1 st))) p)
  = TASK_STATE_QUEUED ∧
  sch_list (schedule_task p start_us deadline_us current2
              (schedule_task_complete p
                 (schedule_task p start_us deadline_us current1 st)))
  = sch_list st ++ [p].
Proof.
  intros Hrun Hp Hnz.
  destruct (schedule_task_accepted p start_us deadline_us current1 st Hrun)
    as (Htk1 & Hl1 & _ & Hclk1 & _).
  specialize (Hl1 Hp).
  set (st1 := schedule_task p start_us deadline_us current1 st) in *.
  set (st2 := schedule_task_complete p st1).
  assert (Htk2 : task_at st2 p = set_state TASK_STATE_COMPLETED (task_at st1 p))
    by (unfold st2, schedule_task_complete; apply task_at_store_eq).
  assert (Hrun2 : state (task_at st2 p) ≠ TASK_STATE_RUNNING)
    by (by rewrite Htk2).
  assert (Hclk2 : sch_clock st2 = sch_clock st) by exact Hclk1.
  assert (Hl2 : sch_list st2 = sch_list st).
  { unfold st2, schedule_task_complete.
    rewrite sch_list_store_task. unfold list_item_del; cbn. rewrite Hl1.
    rewrite filter_app, filter_ne_absent by done.
    rewrite filter_cons_False by tauto.
    by rewrite filter_nil, app_nil_r. }
  destruct (schedule_task_accepted p start_us deadline_us current2 st2 Hrun2)
    as (Htk3 & Hl3 & _).
  rewrite Hl2 in Hl3. specialize (Hl3 Hp).
  rewrite Htk3, Hl3. cbn [start deadline state].
  unfold schedule_task_start. rewrite Hclk2, Htk2, Htk1.
  cbn [set_state start]. unfold schedule_task_start.
  destruct (Z.eqb_spec start_us 0) as [|_]; [done|].
  assert (Hstart : wrap64 (wrap64 (start (task_at st p)
                                   + clock_us_to_ticks (sch_clock st) start_us
                                   - PLATFORM_SCHEDULE_COST)
                           + clock_us_to_ticks (sch_clock st) start_us
                           - PLATFORM_SCHEDULE_COST)
                   = wrap64 (start (task_at st p)
                             + 2 * (clock_us_to_ticks (sch_clock st) start_us
                                    - PLATFORM_SCHEDULE_COST))).
  { rewrite <- Z.add_sub_assoc, wrap64_add_l. f_equal. lia. }
  rewrite Hstart. split; [done|]. split; [|done].
  by rewrite wrap64_add_l.
Qed.
End periodic.

Lemma schedule_task_again_witness :
  state (task_at (one_task TASK_STATE_COMPLETED 700 900 10) 1%nat)
  ≠ TASK_STATE_RUNNING ∧
  start (task_at
           (@schedule_task sample_platform 1%nat 100 1000 8
              (schedule_task_complete 1%nat
                 (@schedule_task sample_platform 1%nat 100 1000 3
                    (one_task TASK_STATE_COMPLETED 700 900 10)))) 1%nat)
  = 700 + 2 * (19 * 100 - 5).
Proof.
  split; [discriminate|].
  apply (@schedule_task_again sample_platform 1%nat 100 1000 3 8
           (one_task TASK_STATE_COMPLETED 700 900 10));
    [discriminate|compute_done|discriminate].
Defined.
